(** * Topic relay of the signaling server (server.js)

    A shallow embedding of the WebSocket relay: the topic registry
    [topics], the per-connection closure state ([isAlive],
    [subscribedTopics]), the delivery routine [send], the message, close
    and heartbeat handlers and the pre-upgrade admission check.

    Sets and maps of the source ([Map], [Set]) are stdpp's [gmap] and
    [gset]; a socket object is identified by a natural number. *)

From Stdlib Require Import ZArith.
From stdpp Require Import base option list strings gmap fin_maps fin_sets.

Local Open Scope string_scope.
Set Warnings "-register-all,-clear-no-such-hyp".

(** ** Parsed JSON values

    The outcome of [JSON.parse].  An object is the list of its own
    properties. *)

Inductive json : Type :=
  | JNull
  | JBool (b : bool)
  | JNum (n : Z)
  | JStr (s : string)
  | JArr (items : list json)
  | JObj (fields : list (string * json)).

Fixpoint assoc (k : string) (fields : list (string * json)) : option json :=
  match fields with
  | [] => None
  | (k', v) :: rest => if decide (k = k') then Some v else assoc k rest
  end.

(** [message.k] for the keys the server reads ([type], [topics], [topic]):
    only an object can carry them; on anything else the access yields
    [undefined], here [None].  With [message?.k] the same holds for [null]. *)
Definition prop (k : string) (message : json) : option json :=
  match message with
  | JObj fields => assoc k fields
  | _ => None
  end.

(** ** Sockets *)

(** What the relay did to one socket, oldest first: a text frame handed to
    the transport ([Sent m] carries [JSON.stringify(m)]), a ping frame, a
    call of [close()], a call of [terminate()]. *)
Inductive action : Type :=
  | Sent (payload : json)
  | Pinged
  | Closed
  | Terminated.

Record socket : Type := mkSocket {
  readyState : Z;                   (* 0 CONNECTING, 1 OPEN, 2 CLOSING, 3 CLOSED *)
  bufferedAmount : Z;
  isAlive : bool;
  subscribedTopics : gset string;   (* the closure variable of the connection *)
  send_throws : bool;               (* whether conn.send(...) throws *)
  ping_throws : bool;               (* whether socket.ping() throws *)
  trace : list action
}.

Definition wsReadyStateOpen : Z := 1.
Definition wsReadyStateClosing : Z := 2.
Definition wsReadyStateClosed : Z := 3.
Definition backpressure_limit : Z := 1000000.

Definition set_readyState (rs : Z) (s : socket) : socket :=
  mkSocket rs (bufferedAmount s) (isAlive s) (subscribedTopics s)
           (send_throws s) (ping_throws s) (trace s).

Definition set_isAlive (b : bool) (s : socket) : socket :=
  mkSocket (readyState s) (bufferedAmount s) b (subscribedTopics s)
           (send_throws s) (ping_throws s) (trace s).

Definition set_subscribedTopics (t : gset string) (s : socket) : socket :=
  mkSocket (readyState s) (bufferedAmount s) (isAlive s) t
           (send_throws s) (ping_throws s) (trace s).

Definition log (a : action) (s : socket) : socket :=
  mkSocket (readyState s) (bufferedAmount s) (isAlive s) (subscribedTopics s)
           (send_throws s) (ping_throws s) (trace s ++ [a]).

(** [conn.close()] of the ws library: an open socket starts its closing
    handshake, any other state is left as it is (a socket of the server
    is never CONNECTING). *)
Definition ws_close (s : socket) : socket :=
  log Closed
    (if decide (readyState s = wsReadyStateOpen)
     then set_readyState wsReadyStateClosing s else s).

(** [socket.terminate()] of the ws library: nothing on a closed socket,
    otherwise the transport is destroyed and the socket is closing. *)
Definition ws_terminate (s : socket) : socket :=
  log Terminated
    (if decide (readyState s = wsReadyStateClosed)
     then s else set_readyState wsReadyStateClosing s).

(** [conn.send(data)]: [None] when the call throws. *)
Definition ws_send (payload : json) (s : socket) : option socket :=
  if send_throws s then None else Some (log (Sent payload) s).

(** [socket.ping()]: [None] when the call throws. *)
Definition ws_ping (s : socket) : option socket :=
  if ping_throws s then None else Some (log Pinged s).

(** ** Delivery: [send] (server.js 59-71) *)

Definition send (conn : socket) (message : json) : socket :=
  if decide (readyState conn ≠ wsReadyStateOpen) then ws_close conn
  else if decide (bufferedAmount conn > backpressure_limit)%Z then conn
  else match ws_send message conn with
       | Some conn' => conn'
       | None => ws_close conn
       end.

(** ** The relay state *)

Record world : Type := mkWorld {
  topics : gmap string (gset nat);   (* const topics = new Map() *)
  sockets : gmap nat socket;         (* every socket object created so far *)
  clients : gset nat                 (* wss.clients *)
}.

Definition initial : world := mkWorld ∅ ∅ ∅.

Definition with_topics (f : gmap string (gset nat) → gmap string (gset nat))
    (w : world) : world :=
  mkWorld (f (topics w)) (sockets w) (clients w).

Definition with_socket (conn : nat) (f : socket → socket) (w : world) : world :=
  mkWorld (topics w) (alter f conn (sockets w)) (clients w).

(** The closure variable [subscribedTopics] of connection [conn]. *)
Definition subscribed (w : world) (conn : nat) : gset string :=
  match sockets w !! conn with
  | Some s => subscribedTopics s
  | None => ∅
  end.

(** ** The message handler (server.js 83-144) *)

(** [message?.type], kept when it is a string: the [switch] compares it
    with string literals by strict equality. *)
Definition message_type (message : json) : option string :=
  match prop "type" message with
  | Some (JStr ty) => Some ty
  | _ => None
  end.

(** [Array.isArray(message.topics) ? message.topics : []] *)
Definition topics_list (message : json) : list json :=
  match prop "topics" message with
  | Some (JArr list) => list
  | _ => []
  end.

(** Body of the [subscribe] loop (97-105). *)
Definition subscribe_topic (socket : nat) (w : world) (topicName : json) : world :=
  match topicName with
  | JStr name =>
      if decide (name = EmptyString) then w
      else
        let subscribers := default ∅ (topics w !! name) in
        with_socket socket
          (λ s, set_subscribedTopics (subscribedTopics s ∪ {[name]}) s)
          (with_topics <[name := subscribers ∪ {[socket]}]> w)
  | _ => w
  end.

(** [subscribers.delete(socket); if (subscribers.size === 0)
    topics.delete(name)] on the entry [subscribers] of [name]; the same
    two statements stand in the unsubscribe loop (128, 130) and in the
    close handler (151, 153). *)
Definition drop_subscriber (socket : nat) (name : string)
    (subscribers : gset nat) (w : world) : world :=
  let subscribers' := subscribers ∖ {[socket]} in
  with_topics
    (λ m, if decide (size subscribers' = 0%nat)
          then delete name m else <[name := subscribers']> m) w.

(** Body of the [unsubscribe] loop (126-131).  The keys of the registry are
    strings, so [topics.get(topicName)] can only hit for a string. *)
Definition unsubscribe_topic (socket : nat) (w : world) (topicName : json) : world :=
  match topicName with
  | JStr name =>
      match topics w !! name with
      | Some subscribers =>
          with_socket socket
            (λ s, set_subscribedTopics (subscribedTopics s ∖ {[name]}) s)
            (drop_subscriber socket name subscribers w)
      | None => w
      end
  | _ => w
  end.

(** One turn of [receivers.forEach] in the [publish] case (116).  A turn
    touches the visited socket only, and neither [close()] nor [send()]
    emits an event before the handler returns, so the set is not changed
    while it is walked. *)
Definition relay_to (socket : nat) (message : json) (receiver : nat) (w : world) : world :=
  if decide (receiver ≠ socket)
  then with_socket receiver (λ conn, send conn message) w
  else w.

Definition publish (socket : nat) (message : json) (w : world) : world :=
  match prop "topic" message with
  | Some (JStr t) =>
      if decide (t = EmptyString) then w
      else match topics w !! t with
           | Some receivers => set_fold (relay_to socket message) w receivers
           | None => w
           end
  | _ => w
  end.

Definition pong : json := JObj [("type", JStr "pong")].

(** [data] is the outcome of [JSON.parse(data.toString())], [None] when it
    throws. *)
Definition on_message (socket : nat) (data : option json) (w : world) : world :=
  match data with
  | None => w
  | Some message =>
      match message_type message with
      | Some ty =>
          if decide (ty = "subscribe") then
            foldl (subscribe_topic socket) w (take 64 (topics_list message))
          else if decide (ty = "publish") then
            publish socket message w
          else if decide (ty = "unsubscribe") then
            foldl (unsubscribe_topic socket) w (topics_list message)
          else if decide (ty = "ping") then
            with_socket socket (λ conn, send conn pong) w
          else w
      | None => w
      end
  end.

(** ** The close handler (146-157) *)

Definition close_topic (socket : nat) (topicName : string) (w : world) : world :=
  match topics w !! topicName with
  | Some subscribers => drop_subscriber socket topicName subscribers w
  | None => w
  end.

(** [subscribedTopics.forEach(...)], then [subscribedTopics.clear()]. *)
Definition on_close (socket : nat) (w : world) : world :=
  with_socket socket (set_subscribedTopics ∅)
    (set_fold (close_topic socket) w (subscribed w socket)).

(** ** Heartbeat (161-169) *)

Definition heartbeat (s : socket) : socket :=
  if decide (isAlive s = false) then ws_terminate s
  else
    let s' := set_isAlive false s in
    match ws_ping s' with
    | Some s'' => s''
    | None => ws_terminate s'
    end.

(** [wss.clients.forEach(...)]: [terminate()] destroys the transport, the
    [close] event of the socket comes later, as an event of its own. *)
Definition on_tick (w : world) : world :=
  set_fold (λ socket w, with_socket socket heartbeat w) w (clients w).

(** The [pong] listener (81). *)
Definition on_pong (socket : nat) (w : world) : world :=
  with_socket socket (set_isAlive true) w.

(** ** The admission check (server.js 29-52) *)

(** What the [upgrade] handler reads of a request: [pathname] is
    [new URL(req.url, 'http://x').pathname], [None] when the constructor
    throws; [origin] is [req.headers.origin], [None] when the request has
    no such header. *)
Record request : Type := mkRequest {
  pathname : option string;
  origin : option string
}.

Inductive verdict : Type :=
  | Destroy          (* socket.destroy() *)
  | HandleUpgrade.   (* wss.handleUpgrade(req, socket, head, ...) *)

Definition ALLOWED_ORIGINS : gset string :=
  {[ "https://collabo-r8vr1547i-collabo-teams-projects.vercel.app";
     "http://localhost:3000" ]}.

(** [x || '/ws'] on an environment variable: unset and empty both fall back. *)
Definition or_default (x : option string) (d : string) : string :=
  match x with
  | Some v => if decide (v = EmptyString) then d else v
  | None => d
  end.

(** The connection listener (73-77): a socket the ws server has just
    accepted and tracked. *)
Definition new_socket : socket :=
  mkSocket wsReadyStateOpen 0 true ∅ false false [].

Definition on_connection (w : world) : world :=
  let socket := fresh (dom (sockets w)) in
  mkWorld (topics w) (<[socket := new_socket]> (sockets w)) (clients w ∪ {[socket]}).

(** ** The server as a transition system *)

(** [Upgrade req] is a WebSocket handshake arriving at the HTTP server: once
    the handler hands it over, the ws server accepts it and emits
    [connection]. *)
Inductive event : Type :=
  | Upgrade (req : request)
  | Message (socket : nat) (data : option json)
  | Pong (socket : nat)
  | Close (socket : nat)
  | Tick
  | Transport (socket : nat) (rs : Z) (buffered : Z) (st pt : bool).

(** The ws library on the close of a socket: the socket is closed and
    leaves [wss.clients], then the listener of the server runs. *)
Definition ws_closed (socket : nat) (w : world) : world :=
  mkWorld (topics w) (alter (set_readyState wsReadyStateClosed) socket (sockets w))
          (clients w ∖ {[socket]}).

(** The transport of a socket moves on its own: state, queue length and
    whether the next write fails. *)
Definition transport (rs buffered : Z) (st pt : bool) (s : socket) : socket :=
  mkSocket rs buffered (isAlive s) (subscribedTopics s) st pt (trace s).

Section Server.

(** [process.env.WS_PATH] *)
Variable env_WS_PATH : option string.

Definition WS_PATH : string := or_default env_WS_PATH "/ws".

(** The handler up to its decision.  [origin && !ALLOWED_ORIGINS.has(origin)]
    tests the truthiness of the header value: [undefined] and the empty
    string both skip the allow-set. *)
Definition on_upgrade (req : request) : verdict :=
  match pathname req with
  | None => Destroy
  | Some p =>
      if decide (p ≠ WS_PATH) then Destroy
      else match origin req with
           | Some o =>
               if decide (o ≠ EmptyString ∧ o ∉ ALLOWED_ORIGINS) then Destroy
               else HandleUpgrade
           | None => HandleUpgrade
           end
  end.

Definition upgrade (req : request) (w : world) : world :=
  match on_upgrade req with
  | Destroy => w
  | HandleUpgrade => on_connection w
  end.

(** Listeners run for sockets that exist. *)
Definition step (w : world) (e : event) : world :=
  match e with
  | Upgrade req => upgrade req w
  | Message socket data =>
      if decide (is_Some (sockets w !! socket)) then on_message socket data w else w
  | Pong socket => on_pong socket w
  | Close socket => on_close socket (ws_closed socket w)
  | Tick => on_tick w
  | Transport socket rs buffered st pt =>
      with_socket socket (transport rs buffered st pt) w
  end.

Definition run (w : world) (events : list event) : world :=
  foldl step w events.

End Server.

(** ** Vocabulary of the properties *)

Definition registry_nonempty (w : world) : Prop :=
  ∀ T M, topics w !! T = Some M → M ≠ ∅.

(** [c] is a subscriber of [T] in the registry. *)
Definition member (w : world) (T : string) (c : nat) : Prop :=
  ∃ M, topics w !! T = Some M ∧ c ∈ M.

Definition registry_agrees (w : world) : Prop :=
  ∀ c T, member w T c ↔ T ∈ subscribed w c.

(** An entry of the registry once [socket] has left it. *)
Definition without (socket : nat) (entry : option (gset nat)) : option (gset nat) :=
  match entry with
  | Some M => if decide (size (M ∖ {[socket]}) = 0%nat) then None else Some (M ∖ {[socket]})
  | None => None
  end.

(** The last probe of [c] is unanswered so far. *)
Definition suspected (w : world) (c : nat) : Prop :=
  ∃ s, sockets w !! c = Some s ∧ isAlive s = false.

(** Socket [c] exists in both states and the field [proj] of it is the
    same. *)
Definition keeps {A} (proj : socket → A) (c : nat) (w w' : world) : Prop :=
  ∀ s, sockets w !! c = Some s → ∃ s', sockets w' !! c = Some s' ∧ proj s' = proj s.

(** The last probe of [c] was answered, or [c] was not probed yet. *)
Definition alive (w : world) (c : nat) : Prop :=
  ∃ s, sockets w !! c = Some s ∧ isAlive s = true.

(** The ws library emits [message] only for a socket whose [close] was not
    emitted yet, that is, one still in [wss.clients]: the event sequences
    that respect this. *)
Fixpoint live_messages (env : option string) (w : world) (events : list event) : Prop :=
  match events with
  | [] => True
  | e :: rest =>
      match e with
      | Message socket _ => socket ∈ clients w
      | _ => True
      end ∧ live_messages env (step env w e) rest
  end.

(** The failing outcomes of a delivery: the socket is not open, or it is
    open and not backed up but the write throws. *)
Definition delivery_fails (conn : socket) : Prop :=
  readyState conn ≠ 1%Z ∨ ((bufferedAmount conn ≤ 1000000)%Z ∧ send_throws conn = true).

(** ** Scenarios *)

(** A request for ["/ws"] without [Origin] header. *)
Definition ok_request : request := mkRequest (Some "/ws") None.

(** [n] distinct one-character topic names. *)
Definition names (n : nat) : list string :=
  (λ i, String (Ascii.ascii_of_nat (48 + i)) EmptyString) <$> seq 0 n.

(** A request for the configured path whose [Origin] header is present and
    empty. *)
Definition empty_origin_request : request := mkRequest (Some "/ws") (Some EmptyString).

Definition subscribe_msg (names : list string) : json :=
  JObj [("type", JStr "subscribe"); ("topics", JArr (JStr <$> names))].

Definition unsubscribe_msg (names : list string) : json :=
  JObj [("type", JStr "unsubscribe"); ("topics", JArr (JStr <$> names))].

(** [{"type":"publish","topic":"x","payload":1}] *)
Definition envelope : json :=
  JObj [("type", JStr "publish"); ("topic", JStr "x"); ("payload", JNum 1)].

(** One connection, subscribed to ["x"]. *)
Definition one_subscriber : world :=
  run None initial [Upgrade ok_request; Message 0 (Some (subscribe_msg ["x"]))].

(** Sockets 0 and 1, both subscribed to ["x"]. *)
Definition two_subscribers : world :=
  run None initial
    [Upgrade ok_request; Upgrade ok_request;
     Message 0 (Some (subscribe_msg ["x"])); Message 1 (Some (subscribe_msg ["x"]))].

(** Sockets 0 and 1 subscribed to ["x"], socket 2 connected without any
    subscription. *)
Definition two_subscribers_and_outsider : world :=
  run None two_subscribers [Upgrade ok_request].

(** * Properties *)

(** ** Folds *)

Lemma foldl_preserves {A B} (P : A → Prop) (f : A → B → A) (l : list B) :
  (∀ a b, P a → P (f a b)) → ∀ a, P a → P (foldl f a l).
Proof.
  intros Hf. induction l as [|b l IH]; intros a Ha; simpl; [done|].
  apply IH, Hf, Ha.
Qed.

Lemma foldr_preserves {A B} (P : A → Prop) (f : B → A → A) (l : list B) :
  (∀ a b, P a → P (f b a)) → ∀ a, P a → P (foldr f a l).
Proof.
  intros Hf a Ha. induction l as [|b l IH]; simpl; [done|].
  apply Hf, IH.
Qed.

Lemma set_fold_preserves {A} (P : A → Prop) (f : string → A → A) (X : gset string) :
  (∀ a b, P a → P (f b a)) → ∀ a, P a → P (set_fold f a X).
Proof. intros Hf a Ha. unfold set_fold; simpl. by apply foldr_preserves. Qed.

(** ** Invariant 1: no empty topic *)

Lemma with_socket_topics conn f w : topics (with_socket conn f w) = topics w.
Proof. done. Qed.

Lemma with_socket_nonempty conn f w :
  registry_nonempty w → registry_nonempty (with_socket conn f w).
Proof. done. Qed.

Lemma subscribe_topic_nonempty socket w topicName :
  registry_nonempty w → registry_nonempty (subscribe_topic socket w topicName).
Proof.
  intros Hw. destruct topicName as [| | |name| |]; simpl; try done.
  case_decide; [done|]. apply with_socket_nonempty.
  intros T M. simpl. rewrite lookup_insert.
  case_decide; [|by apply Hw].
  intros [= <-]. set_solver.
Qed.

Lemma drop_subscriber_nonempty socket name subscribers w :
  registry_nonempty w → registry_nonempty (drop_subscriber socket name subscribers w).
Proof.
  intros Hw T S. unfold drop_subscriber. simpl. case_decide as Hsz.
  - rewrite lookup_delete. case_decide; [done|]. apply Hw.
  - rewrite lookup_insert. case_decide; [|by apply Hw].
    intros [= <-] Hempty. apply Hsz. rewrite Hempty. apply size_empty.
Qed.

Lemma unsubscribe_topic_nonempty socket w topicName :
  registry_nonempty w → registry_nonempty (unsubscribe_topic socket w topicName).
Proof.
  intros Hw. destruct topicName as [| | |name| |]; simpl; try done.
  destruct (topics w !! name) as [subscribers|]; [|done].
  by apply with_socket_nonempty, drop_subscriber_nonempty.
Qed.

Lemma close_topic_nonempty socket topicName w :
  registry_nonempty w → registry_nonempty (close_topic socket topicName w).
Proof.
  intros Hw. unfold close_topic.
  destruct (topics w !! topicName); [|done]. by apply drop_subscriber_nonempty.
Qed.

(** ** A fold that updates one socket per turn *)

Section SocketFold.

Variable P : nat → Prop.
Context `{!∀ c, Decision (P c)}.
Variable h : socket → socket.
Variable g : nat → world → world.
Hypothesis g_spec :
  ∀ c w, g c w = if decide (P c) then with_socket c h w else w.

Lemma socket_fold_topics l w : topics (foldr g w l) = topics w.
Proof.
  induction l as [|c l IH]; simpl; [done|].
  rewrite g_spec. by case_decide.
Qed.

Lemma socket_fold_clients l w : clients (foldr g w l) = clients w.
Proof.
  induction l as [|c l IH]; simpl; [done|].
  rewrite g_spec. by case_decide.
Qed.

Lemma socket_fold_sockets l w c :
  NoDup l →
  sockets (foldr g w l) !! c =
    if decide (c ∈ l ∧ P c) then h <$> sockets w !! c else sockets w !! c.
Proof.
  induction 1 as [|c' l Hnotin Hnd IH]; cbn [foldr].
  - case_decide as Hc; [|done]. destruct Hc as [Hc _]. by apply elem_of_nil in Hc.
  - rewrite g_spec. destruct (decide (P c')) as [Hp|Hp].
    + unfold with_socket; cbn [sockets]. rewrite lookup_alter. destruct (decide (c' = c)) as [->|Hne].
      * rewrite IH. rewrite decide_False by tauto.
        rewrite decide_True; [done|]. split; [left|done].
      * rewrite IH. apply decide_ext. rewrite elem_of_cons. intuition congruence.
    + rewrite IH. apply decide_ext. rewrite elem_of_cons. intuition congruence.
Qed.

End SocketFold.

Lemma publish_topics socket message w : topics (publish socket message w) = topics w.
Proof.
  unfold publish.
  destruct (prop "topic" message) as [[| | |t| |]|]; try done.
  case_decide; [done|]. destruct (topics w !! t) as [receivers|]; [|done].
  unfold set_fold; simpl.
  by apply (socket_fold_topics (λ c, c ≠ socket) (λ conn, send conn message)).
Qed.

Lemma on_tick_topics w : topics (on_tick w) = topics w.
Proof.
  unfold on_tick, set_fold; simpl.
  apply (socket_fold_topics (λ _, True) heartbeat). done.
Qed.

Lemma on_message_nonempty socket data w :
  registry_nonempty w → registry_nonempty (on_message socket data w).
Proof.
  intros Hw. destruct data as [message|]; simpl; [|done].
  destruct (message_type message) as [ty|]; [|done].
  repeat case_decide; try done.
  - apply foldl_preserves; [|done]. intros; by apply subscribe_topic_nonempty.
  - intros T M. rewrite publish_topics. apply Hw.
  - apply foldl_preserves; [|done]. intros; by apply unsubscribe_topic_nonempty.
Qed.

Lemma on_close_nonempty socket w :
  registry_nonempty w → registry_nonempty (on_close socket w).
Proof.
  intros Hw. unfold on_close. apply with_socket_nonempty.
  apply set_fold_preserves; [|done]. intros; by apply close_topic_nonempty.
Qed.

Lemma step_nonempty env w e :
  registry_nonempty w → registry_nonempty (step env w e).
Proof.
  intros Hw. destruct e as [req|socket data|socket|socket| |socket rs ba st pt]; simpl.
  - unfold upgrade. by destruct (on_upgrade env req).
  - case_decide; [|done]. by apply on_message_nonempty.
  - done.
  - by apply on_close_nonempty.
  - intros T M. rewrite on_tick_topics. apply Hw.
  - done.
Qed.

Lemma run_nonempty env events w :
  registry_nonempty w → registry_nonempty (run env w events).
Proof. apply foldl_preserves. intros; by apply step_nonempty. Qed.

(** ** The registry after a close *)

Lemma without_idemp socket entry :
  without socket (without socket entry) = without socket entry.
Proof.
  destruct entry as [M|]; simpl; [|done].
  case_decide as Hsz; simpl; [done|].
  replace (M ∖ {[socket]} ∖ {[socket]}) with (M ∖ {[socket]}) by set_solver.
  by rewrite decide_False.
Qed.

Lemma without_elem socket entry M c :
  without socket entry = Some M → c ∈ M ↔ c ≠ socket ∧ ∃ M0, entry = Some M0 ∧ c ∈ M0.
Proof.
  destruct entry as [M0|]; simpl; [|done].
  case_decide; [done|]. intros [= <-]. set_solver.
Qed.

Lemma without_None socket entry c :
  without socket entry = None → c ≠ socket → ∀ M0, entry = Some M0 → c ∉ M0.
Proof.
  destruct entry as [M|]; simpl; [|done].
  case_decide as Hsz; [|done]. intros _ Hne M0 [= <-] Hin.
  apply size_empty_inv in Hsz. set_solver.
Qed.

Lemma drop_subscriber_lookup socket name subscribers w T :
  topics w !! name = Some subscribers →
  topics (drop_subscriber socket name subscribers w) !! T =
    if decide (T = name) then without socket (topics w !! T) else topics w !! T.
Proof.
  intros Hname. unfold drop_subscriber; simpl.
  destruct (decide (T = name)) as [->|Hne].
  - rewrite Hname; simpl. case_decide.
    + by rewrite lookup_delete_eq.
    + by rewrite lookup_insert_eq.
  - case_decide.
    + by rewrite lookup_delete_ne.
    + by rewrite lookup_insert_ne.
Qed.

Lemma close_topic_lookup socket name w T :
  topics (close_topic socket name w) !! T =
    if decide (T = name) then without socket (topics w !! T) else topics w !! T.
Proof.
  unfold close_topic. destruct (topics w !! name) as [subscribers|] eqn:Hname.
  - by apply drop_subscriber_lookup.
  - case_decide as Heq; [|done]. subst T. by rewrite Hname.
Qed.

Lemma close_topic_sockets socket name w :
  sockets (close_topic socket name w) = sockets w ∧
  clients (close_topic socket name w) = clients w.
Proof. unfold close_topic. by destruct (topics w !! name). Qed.

Lemma close_fold_sockets socket l w :
  sockets (foldr (close_topic socket) w l) = sockets w ∧
  clients (foldr (close_topic socket) w l) = clients w.
Proof.
  induction l as [|name l [IHs IHc]]; simpl; [done|].
  destruct (close_topic_sockets socket name (foldr (close_topic socket) w l)) as [-> ->].
  done.
Qed.

Lemma close_fold_lookup socket l w T :
  topics (foldr (close_topic socket) w l) !! T =
    if decide (T ∈ l) then without socket (topics w !! T) else topics w !! T.
Proof.
  induction l as [|name l IH]; cbn [foldr].
  - rewrite decide_False; [done|]. apply not_elem_of_nil.
  - rewrite close_topic_lookup, IH. destruct (decide (T = name)) as [->|Hne].
    + rewrite (decide_True (P := name ∈ name :: l)) by left.
      case_decide; [apply without_idemp|done].
    + apply decide_ext. rewrite elem_of_cons. intuition congruence.
Qed.

Lemma on_close_lookup socket w T :
  topics (on_close socket w) !! T =
    if decide (T ∈ subscribed w socket) then without socket (topics w !! T)
    else topics w !! T.
Proof.
  unfold on_close, set_fold; simpl. rewrite close_fold_lookup.
  apply decide_ext, elem_of_elements.
Qed.

Lemma on_close_subscribed socket w c :
  subscribed (on_close socket w) c =
    if decide (c = socket) then ∅ else subscribed w c.
Proof.
  unfold on_close, subscribed, set_fold; simpl.
  destruct (close_fold_sockets socket (elements (subscribed w socket)) w) as [Hs _].
  unfold subscribed in Hs. rewrite lookup_alter, Hs.
  destruct (decide (c = socket)) as [->|Hne].
  - rewrite decide_True by done. by destruct (sockets w !! socket).
  - by rewrite decide_False by done.
Qed.

(** ** Invariant 2: the registry and the connections' own sets agree *)

Lemma subscribed_with_socket conn f w c :
  (∀ s, subscribedTopics (f s) = subscribedTopics s) →
  subscribed (with_socket conn f w) c = subscribed w c.
Proof.
  intros Hf. unfold subscribed, with_socket; simpl. rewrite lookup_alter.
  case_decide as Heq; [|done]. subst c.
  destruct (sockets w !! conn) as [s|]; simpl; [apply Hf|done].
Qed.

Lemma with_socket_agrees conn f w :
  (∀ s, subscribedTopics (f s) = subscribedTopics s) →
  registry_agrees w → registry_agrees (with_socket conn f w).
Proof.
  intros Hf Hw c T. rewrite subscribed_with_socket by done. apply Hw.
Qed.

Lemma send_subscribedTopics message s :
  subscribedTopics (send s message) = subscribedTopics s.
Proof.
  unfold send, ws_send, ws_close. repeat case_decide; try done.
  all: destruct (send_throws s); try done; by case_decide.
Qed.

Lemma heartbeat_subscribedTopics s :
  subscribedTopics (heartbeat s) = subscribedTopics s.
Proof.
  unfold heartbeat, ws_ping, ws_terminate. case_decide.
  - by case_decide.
  - simpl. destruct (ping_throws s); [|done]. simpl. by case_decide.
Qed.

Lemma subscribe_topic_member socket w name T c :
  name ≠ EmptyString →
  member (subscribe_topic socket w (JStr name)) T c ↔
    member w T c ∨ (T = name ∧ c = socket).
Proof.
  intros Hname. unfold member, subscribe_topic. rewrite decide_False by done.
  simpl. rewrite lookup_insert. destruct (decide (name = T)) as [<-|Hne].
  - destruct (topics w !! name) as [M0|]; simpl.
    + split.
      * intros (M & [= <-] & Hin). set_solver.
      * intros [(M & [= <-] & Hin)|[_ ->]]; eexists; (split; [done|]); set_solver.
    + split.
      * intros (M & [= <-] & Hin). set_solver.
      * intros [(M & ? & _)|[_ ->]]; [done|]. eexists; split; [done|]. set_solver.
  - split; [by left|]. intros [?|[? _]]; [done|]. congruence.
Qed.

Lemma subscribe_topic_subscribed socket w name T c :
  name ≠ EmptyString → is_Some (sockets w !! socket) →
  T ∈ subscribed (subscribe_topic socket w (JStr name)) c ↔
    T ∈ subscribed w c ∨ (T = name ∧ c = socket).
Proof.
  intros Hname [s Hs]. unfold subscribed, subscribe_topic.
  rewrite decide_False by done. simpl. rewrite lookup_alter.
  destruct (decide (socket = c)) as [<-|Hne].
  - rewrite Hs; simpl. set_solver.
  - split; [by left|]. intros [?|[_ ?]]; [done|]. congruence.
Qed.

Lemma subscribe_topic_exists socket w topicName c :
  is_Some (sockets (subscribe_topic socket w topicName) !! c) ↔ is_Some (sockets w !! c).
Proof.
  destruct topicName as [| | |name| |]; simpl; try done.
  case_decide; [done|]. simpl. apply lookup_alter_is_Some.
Qed.

Lemma subscribe_topic_agrees socket w topicName :
  is_Some (sockets w !! socket) →
  registry_agrees w → registry_agrees (subscribe_topic socket w topicName).
Proof.
  intros Hs Hw. destruct topicName as [| | |name| |]; try done.
  destruct (decide (name = EmptyString)) as [->|Hname].
  { unfold subscribe_topic. by rewrite decide_True. }
  intros c T. rewrite subscribe_topic_member, subscribe_topic_subscribed by done.
  by rewrite (Hw c T).
Qed.

Lemma unsubscribe_topic_member socket w name T c :
  member (unsubscribe_topic socket w (JStr name)) T c ↔
    member w T c ∧ ¬ (T = name ∧ c = socket).
Proof.
  unfold member, unsubscribe_topic.
  destruct (topics w !! name) as [M0|] eqn:Hname.
  - rewrite with_socket_topics.
    rewrite (drop_subscriber_lookup _ _ _ _ _ Hname).
    destruct (decide (T = name)) as [->|Hne].
    + rewrite Hname. split.
      * intros (M & HM & Hin). apply (without_elem _ _ _ c) in HM.
        apply HM in Hin as (Hc & M1 & [= <-] & Hin). split; [by eauto|tauto].
      * intros [(M & [= <-] & Hin) Hc]. assert (c ≠ socket) as Hne by tauto.
        simpl. case_decide as Hsz.
        -- apply size_empty_inv in Hsz. set_solver.
        -- eexists; split; [done|]. set_solver.
    + split; [|tauto]. intros; split; [done|tauto].
  - split; [|tauto]. intros (M & HM & Hin). split; [by eauto|].
    intros [-> _]. congruence.
Qed.

Lemma unsubscribe_topic_subscribed socket w name T c :
  is_Some (topics w !! name) →
  T ∈ subscribed (unsubscribe_topic socket w (JStr name)) c ↔
    T ∈ subscribed w c ∧ ¬ (T = name ∧ c = socket).
Proof.
  intros [M0 Hname]. unfold subscribed, unsubscribe_topic. rewrite Hname.
  simpl. rewrite lookup_alter.
  destruct (decide (socket = c)) as [<-|Hne].
  - destruct (sockets w !! socket) as [s|]; simpl; set_solver.
  - split; [|tauto]. intros; split; [done|]. intros [_ ?]; congruence.
Qed.

Lemma unsubscribe_topic_exists socket w topicName c :
  is_Some (sockets (unsubscribe_topic socket w topicName) !! c) ↔ is_Some (sockets w !! c).
Proof.
  destruct topicName as [| | |name| |]; simpl; try done.
  destruct (topics w !! name); [|done]. simpl. apply lookup_alter_is_Some.
Qed.

Lemma unsubscribe_topic_agrees socket w topicName :
  registry_agrees w → registry_agrees (unsubscribe_topic socket w topicName).
Proof.
  intros Hw. destruct topicName as [| | |name| |]; try done.
  destruct (topics w !! name) as [M0|] eqn:Hname.
  - intros c T. rewrite unsubscribe_topic_member, unsubscribe_topic_subscribed by eauto.
    by rewrite (Hw c T).
  - unfold unsubscribe_topic. by rewrite Hname.
Qed.

Lemma on_close_agrees socket w :
  registry_agrees w → registry_agrees (on_close socket w).
Proof.
  intros Hw c T. unfold member. rewrite on_close_lookup, on_close_subscribed.
  destruct (decide (c = socket)) as [->|Hne].
  - split; [|set_solver]. intros (M & HM & Hin). exfalso.
    case_decide as HT.
    + apply (without_elem _ _ _ socket) in HM. apply HM in Hin. tauto.
    + apply HT, Hw. by exists M.
  - rewrite <-(Hw c T). unfold member. case_decide as HT; [|done]. split.
    + intros (M & HM & Hin). apply (without_elem _ _ _ c) in HM.
      apply HM in Hin as (_ & M1 & ? & ?). eauto.
    + intros (M & HM & Hin).
      destruct (without socket (topics w !! T)) as [M'|] eqn:HM'.
      * exists M'. split; [done|]. apply (without_elem _ _ _ c) in HM'.
        apply HM'. eauto.
      * exfalso. by eapply (without_None _ _ c HM' Hne M).
Qed.

Lemma agrees_ext w w' :
  topics w' = topics w → (∀ c, subscribed w' c = subscribed w c) →
  registry_agrees w → registry_agrees w'.
Proof.
  intros Ht Hs Hw c T. unfold member. rewrite Ht, Hs. apply Hw.
Qed.

Lemma socket_fold_subscribed (P : nat → Prop) `{!∀ c, Decision (P c)}
    (h : socket → socket) (g : nat → world → world) (X : gset nat) w c :
  (∀ c w, g c w = if decide (P c) then with_socket c h w else w) →
  (∀ s, subscribedTopics (h s) = subscribedTopics s) →
  subscribed (set_fold g w X) c = subscribed w c.
Proof.
  intros Hg Hh. unfold subscribed, set_fold; simpl.
  rewrite (socket_fold_sockets P h g Hg) by apply NoDup_elements.
  case_decide; [|done]. destruct (sockets w !! c); simpl; [apply Hh|done].
Qed.

Lemma publish_subscribed socket message w c :
  subscribed (publish socket message w) c = subscribed w c.
Proof.
  unfold publish.
  destruct (prop "topic" message) as [[| | |t| |]|]; try done.
  case_decide; [done|]. destruct (topics w !! t) as [receivers|]; [|done].
  apply (socket_fold_subscribed (λ c, c ≠ socket) (λ conn, send conn message)).
  - done.
  - intros s. apply send_subscribedTopics.
Qed.

Lemma on_tick_subscribed w c : subscribed (on_tick w) c = subscribed w c.
Proof.
  apply (socket_fold_subscribed (λ _, True) heartbeat); [done|].
  apply heartbeat_subscribedTopics.
Qed.

Lemma on_message_exists socket data w :
  is_Some (sockets w !! socket) →
  is_Some (sockets (on_message socket data w) !! socket).
Proof.
  intros Hs. destruct data as [message|]; simpl; [|done].
  destruct (message_type message) as [ty|]; [|done].
  repeat case_decide; try done.
  - apply (foldl_preserves (λ w, is_Some (sockets w !! socket))); [|done].
    intros a b. by rewrite subscribe_topic_exists.
  - unfold publish.
    destruct (prop "topic" message) as [[| | |t| |]|]; try done.
    case_decide; [done|]. destruct (topics w !! t) as [receivers|]; [|done].
    unfold set_fold; simpl.
    rewrite (socket_fold_sockets (λ c, c ≠ socket) (λ conn, send conn message))
      by (done || apply NoDup_elements).
    case_decide; [|done]. by apply fmap_is_Some.
  - apply (foldl_preserves (λ w, is_Some (sockets w !! socket))); [|done].
    intros a b. by rewrite unsubscribe_topic_exists.
  - simpl. by apply lookup_alter_is_Some.
Qed.

Lemma on_message_agrees socket data w :
  is_Some (sockets w !! socket) →
  registry_agrees w → registry_agrees (on_message socket data w).
Proof.
  intros Hs Hw. destruct data as [message|]; simpl; [|done].
  destruct (message_type message) as [ty|]; [|done].
  repeat case_decide; try done.
  - apply (foldl_preserves
             (λ w, is_Some (sockets w !! socket) ∧ registry_agrees w)); [|done].
    intros a b [Ha1 Ha2]. split.
    + by rewrite subscribe_topic_exists.
    + by apply subscribe_topic_agrees.
  - apply (agrees_ext w); [apply publish_topics|apply publish_subscribed|done].
  - apply foldl_preserves; [|done]. intros; by apply unsubscribe_topic_agrees.
  - apply with_socket_agrees; [|done]. intros s. apply send_subscribedTopics.
Qed.

Lemma on_connection_agrees w : registry_agrees w → registry_agrees (on_connection w).
Proof.
  apply agrees_ext; [done|]. intros c. unfold subscribed, on_connection; simpl.
  rewrite lookup_insert. case_decide as Heq; [|done]. subst c.
  rewrite (not_elem_of_dom_1 (sockets w) (fresh (dom (sockets w)))); [done|].
  apply is_fresh.
Qed.

Lemma ws_closed_agrees socket w : registry_agrees w → registry_agrees (ws_closed socket w).
Proof.
  apply agrees_ext; [done|]. intros c.
  by apply (subscribed_with_socket socket (set_readyState wsReadyStateClosed)).
Qed.

Lemma step_agrees env w e :
  registry_agrees w → registry_agrees (step env w e).
Proof.
  intros Hw. destruct e as [req|socket data|socket|socket| |socket rs ba st pt]; simpl.
  - unfold upgrade. destruct (on_upgrade env req); [done|]. by apply on_connection_agrees.
  - case_decide; [|done]. by apply on_message_agrees.
  - by apply with_socket_agrees.
  - by apply on_close_agrees, ws_closed_agrees.
  - apply (agrees_ext w); [apply on_tick_topics|apply on_tick_subscribed|done].
  - by apply with_socket_agrees.
Qed.

Lemma initial_agrees : registry_agrees initial.
Proof.
  intros c T. unfold member, subscribed; simpl. rewrite !lookup_empty.
  split; [by intros (M & ? & _)|set_solver].
Qed.

Lemma run_agrees env events w :
  registry_agrees w → registry_agrees (run env w events).
Proof. apply foldl_preserves. intros; by apply step_agrees. Qed.

Lemma initial_nonempty : registry_nonempty initial.
Proof. intros T M. simpl. by rewrite lookup_empty. Qed.

(** C1.  Whatever events the server has handled since it started (upgrades,
    messages of any kind, pongs, closes, heartbeat ticks, transport
    changes), every topic of the registry has at least one subscriber; and
    when a connection then closes, a topic that is left without
    subscribers is no longer in the registry. *)
Theorem registry_topics_nonempty env events :
  let w := run env initial events in
  (∀ T M, topics w !! T = Some M → M ≠ ∅) ∧
  (∀ socket T M,
      topics w !! T = Some M → M ∖ {[socket]} = ∅ →
      topics (step env w (Close socket)) !! T = None).
Proof.
  intros w.
  assert (registry_nonempty w) as Hne by apply run_nonempty, initial_nonempty.
  assert (registry_agrees w) as Hag by apply run_agrees, initial_agrees.
  split; [exact Hne|].
  intros socket T M HM Hempty.
  change (step env w (Close socket)) with (on_close socket (ws_closed socket w)).
  rewrite on_close_lookup.
  assert (socket ∈ M) as Hin.
  { destruct (decide (socket ∈ M)) as [|Hnotin]; [done|].
    exfalso. apply (Hne T M HM). set_solver. }
  replace (subscribed (ws_closed socket w) socket) with (subscribed w socket)
    by (symmetry; by apply (subscribed_with_socket socket (set_readyState wsReadyStateClosed))).
  rewrite decide_True by (apply Hag; by exists M).
  change (topics (ws_closed socket w)) with (topics w). rewrite HM.
  unfold without. rewrite Hempty. by rewrite decide_True by apply size_empty.
Qed.

(** C2.  Whatever events the server has handled since it started, a
    connection is in the registry's subscriber set of a topic exactly when
    the topic is in the connection's own [subscribedTopics]. *)
Theorem registry_matches_subscribedTopics env events c T :
  let w := run env initial events in
  (∃ M, topics w !! T = Some M ∧ c ∈ M) ↔ T ∈ subscribed w c.
Proof.
  intros w. apply (run_agrees env events initial initial_agrees c T).
Qed.

(** ** The cap on the topics of one message *)

Lemma unsubscribe_fold_member socket l w T c :
  member (foldl (unsubscribe_topic socket) w l) T c ↔
    member w T c ∧ ¬ (c = socket ∧ JStr T ∈ l).
Proof.
  revert w. induction l as [|x l IH]; intros w; cbn [foldl].
  - split; [|tauto]. intros; split; [done|]. intros [_ ?%elem_of_nil]. done.
  - rewrite IH, elem_of_cons. destruct x as [| | |name| |];
      try (unfold unsubscribe_topic; intuition congruence).
    rewrite unsubscribe_topic_member.
    split.
    + intros [[Hm Hne] Hl]. split; [done|]. intros [-> [[= ->]|?]]; tauto.
    + intros [Hm Hne]. split; [split; [done|]|]; intros [? ?]; subst; apply Hne; tauto.
Qed.

(** C3, as stated, fails for [unsubscribe]: two unsubscribe envelopes with
    the same first 64 entries, one of them with a 65th entry ["x"]; the 65th
    entry is applied and takes the connection out of topic ["x"]. *)
Lemma unsubscribe_applies_entry_65 :
  let m := unsubscribe_msg (replicate 64 "a" ++ ["x"]) in
  let m64 := unsubscribe_msg (replicate 64 "a") in
  take 64 (topics_list m) = take 64 (topics_list m64) ∧
  topics (on_message 0 (Some m64) one_subscriber) !! "x" = Some {[0]} ∧
  subscribed (on_message 0 (Some m64) one_subscriber) 0 = {["x"]} ∧
  topics (on_message 0 (Some m) one_subscriber) !! "x" = None ∧
  subscribed (on_message 0 (Some m) one_subscriber) 0 = ∅ ∧
  on_message 0 (Some m) one_subscriber ≠ on_message 0 (Some m64) one_subscriber.
Proof.
  repeat split; by vm_compute.
Qed.

(** C3, amended.  A subscribe envelope is applied up to its 64th topic:
    two subscribe envelopes whose lists agree on the first 64 entries have
    the same effect, so later entries change neither the registry nor the
    connection's own set.  An unsubscribe envelope is applied in full:
    whatever the position of a name in its list, the connection is no
    subscriber of that topic afterwards. *)
Theorem subscribe_capped_unsubscribe_not :
  (∀ socket w m m',
      message_type m = Some "subscribe" → message_type m' = Some "subscribe" →
      take 64 (topics_list m) = take 64 (topics_list m') →
      on_message socket (Some m) w = on_message socket (Some m') w) ∧
  (∀ socket w m name,
      message_type m = Some "unsubscribe" → JStr name ∈ topics_list m →
      ¬ ∃ M, topics (on_message socket (Some m) w) !! name = Some M ∧ socket ∈ M).
Proof.
  split.
  - intros socket w m m' Hm Hm' Heq. unfold on_message.
    rewrite Hm, Hm'. rewrite !decide_True by done. by rewrite Heq.
  - intros socket w m name Hm Hin. unfold on_message.
    rewrite Hm. rewrite decide_False by done. rewrite decide_False by done.
    rewrite decide_True by done.
    intros Hmem. apply (unsubscribe_fold_member socket _ w name socket) in Hmem. tauto.
Qed.

Lemma subscribe_capped_unsubscribe_not_witness :
  on_message 0 (Some (subscribe_msg (replicate 64 "a" ++ ["x"]))) initial =
    on_message 0 (Some (subscribe_msg (replicate 64 "a"))) initial ∧
  ¬ ∃ M, topics (on_message 0 (Some (unsubscribe_msg (replicate 64 "a" ++ ["x"])))
                   one_subscriber) !! "x" = Some M ∧ 0 ∈ M.
Proof.
  split.
  - apply (proj1 subscribe_capped_unsubscribe_not); reflexivity.
  - apply (proj2 subscribe_capped_unsubscribe_not); [reflexivity|].
    vm_compute. apply list_elem_of_In. simpl. tauto.
Defined.

(** ** Subscribing again *)

Section Absorb.

Context {A B : Type}.
Variable f : A → B → A.
Hypothesis f_comm : ∀ a x y, f (f a x) y = f (f a y) x.
Hypothesis f_idemp : ∀ a x, f (f a x) x = f a x.

Lemma foldl_keeps_absorbed l a x : f a x = a → f (foldl f a l) x = foldl f a l.
Proof.
  revert a. induction l as [|y l IH]; intros a Ha; cbn [foldl]; [done|].
  apply IH. by rewrite f_comm, Ha.
Qed.

Lemma foldl_absorbs l a x : x ∈ l → f (foldl f a l) x = foldl f a l.
Proof.
  revert a. induction l as [|y l IH]; intros a Hin; cbn [foldl].
  - by apply elem_of_nil in Hin.
  - apply elem_of_cons in Hin as [->|Hin].
    + apply foldl_keeps_absorbed, f_idemp.
    + by apply IH.
Qed.

Lemma foldl_again l l' a :
  (∀ x, x ∈ l' → x ∈ l) → foldl f (foldl f a l) l' = foldl f a l.
Proof.
  induction l' as [|x l' IH] using rev_ind; intros Hsub; [done|].
  rewrite foldl_snoc, IH.
  - apply foldl_absorbs, Hsub, elem_of_app. right. by left.
  - intros y Hy. apply Hsub, elem_of_app. by left.
Qed.

End Absorb.

Lemma world_eq w w' :
  topics w = topics w' → sockets w = sockets w' → clients w = clients w' → w = w'.
Proof. destruct w, w'; simpl. by intros -> -> ->. Qed.

Lemma subscribe_topic_idemp socket w x :
  subscribe_topic socket (subscribe_topic socket w x) x = subscribe_topic socket w x.
Proof.
  destruct x as [| | |name| |]; try done. unfold subscribe_topic.
  case_decide; [done|]. apply world_eq; simpl; [| |done].
  - rewrite lookup_insert_eq, insert_insert_eq. simpl. f_equal. set_solver.
  - rewrite alter_alter_eq. apply alter_ext. intros s _.
    unfold set_subscribedTopics; simpl. f_equal. set_solver.
Qed.

Lemma subscribe_topic_comm socket w x y :
  subscribe_topic socket (subscribe_topic socket w x) y =
  subscribe_topic socket (subscribe_topic socket w y) x.
Proof.
  destruct x as [| | |name| |], y as [| | |name'| |]; try done.
  destruct (decide (name = name')) as [->|Hne]; [done|].
  unfold subscribe_topic.
  destruct (decide (name = EmptyString)), (decide (name' = EmptyString)); try done.
  apply world_eq; simpl; [| |done].
  - rewrite !lookup_insert_ne by done. by apply insert_insert_ne.
  - rewrite !alter_alter_eq. apply alter_ext. intros s _.
    unfold set_subscribedTopics; simpl. f_equal. set_solver.
Qed.

(** C9.  Once a subscribe envelope has been handled, a further subscribe
    envelope of the same connection that names only topics the first one
    applied changes nothing at all: every subscriber set (and so its size)
    and the connection's own set are as the first envelope left them. *)
Theorem subscribe_again_is_noop socket w m1 m2 :
  message_type m1 = Some "subscribe" → message_type m2 = Some "subscribe" →
  (∀ x, x ∈ take 64 (topics_list m2) → x ∈ take 64 (topics_list m1)) →
  let w1 := on_message socket (Some m1) w in
  on_message socket (Some m2) w1 = w1.
Proof.
  intros H1 H2 Hsub. unfold on_message. rewrite H1, H2.
  rewrite !decide_True by done.
  apply foldl_again; [apply subscribe_topic_comm|apply subscribe_topic_idemp|done].
Qed.

Lemma subscribe_again_is_noop_witness :
  on_message 0 (Some (subscribe_msg ["x"])) one_subscriber = one_subscriber ∧
  (size <$> topics one_subscriber !! "x") = Some 1%nat ∧
  subscribed one_subscriber 0 = {["x"]}.
Proof.
  split; [|by vm_compute].
  apply (subscribe_again_is_noop 0 (run None initial [Upgrade ok_request])
           (subscribe_msg ["x"]) (subscribe_msg ["x"])); [reflexivity|reflexivity|done].
Defined.

(** ** Delivery *)

(** C6.  [send] leaves a socket that is open and has more than 1,000,000
    bytes queued exactly as it found it: no frame is handed to the
    transport, [close()] is not called, the socket stays open. *)
Theorem send_skips_backed_up_socket conn message :
  readyState conn = 1%Z → (bufferedAmount conn > 1000000)%Z →
  send conn message = conn.
Proof.
  intros Hopen Hbuf. unfold send.
  rewrite decide_False by (unfold wsReadyStateOpen; lia).
  by rewrite decide_True by (unfold backpressure_limit; lia).
Qed.

Lemma send_skips_backed_up_socket_witness :
  send (mkSocket 1 1000001 true ∅ false false []) pong =
    mkSocket 1 1000001 true ∅ false false [].
Proof.
  apply (send_skips_backed_up_socket (mkSocket 1 1000001 true ∅ false false []) pong);
    simpl; lia.
Defined.

(** An open socket with at most 1,000,000 bytes queued whose transport
    takes the write gets the frame, and nothing else happens to it. *)
Lemma send_delivers conn message :
  readyState conn = 1%Z → (bufferedAmount conn ≤ 1000000)%Z → send_throws conn = false →
  send conn message = log (Sent message) conn.
Proof.
  intros Hopen Hbuf Hst. unfold send, ws_send.
  rewrite decide_False by (unfold wsReadyStateOpen; lia).
  rewrite decide_False by (unfold backpressure_limit; lia).
  by rewrite Hst.
Qed.

(** A socket that is not open gets [close()] and no frame. *)
Lemma send_closes_unopened conn message :
  readyState conn ≠ 1%Z → send conn message = log Closed conn.
Proof.
  intros Hopen. unfold send, ws_close. rewrite decide_True by done.
  by rewrite decide_False by done.
Qed.

(** ** Messages that are not understood *)



(** ** Publishing *)

Lemma publish_fold socket message w t receivers :
  prop "topic" message = Some (JStr t) → t ≠ EmptyString → topics w !! t = Some receivers →
  publish socket message w = set_fold (relay_to socket message) w receivers.
Proof.
  intros Ht Hne Hr. unfold publish. rewrite Ht, decide_False by done. by rewrite Hr.
Qed.

Lemma publish_sockets socket message w t receivers c :
  prop "topic" message = Some (JStr t) → t ≠ EmptyString → topics w !! t = Some receivers →
  sockets (publish socket message w) !! c =
    if decide (c ∈ receivers ∧ c ≠ socket)
    then (λ conn, send conn message) <$> sockets w !! c
    else sockets w !! c.
Proof.
  intros Ht Hne Hr. rewrite (publish_fold _ _ _ _ _ Ht Hne Hr).
  unfold set_fold; simpl.
  rewrite (socket_fold_sockets (λ c, c ≠ socket) (λ conn, send conn message))
    by (done || apply NoDup_elements).
  apply decide_ext. by rewrite elem_of_elements.
Qed.

Lemma publish_clients socket message w : clients (publish socket message w) = clients w.
Proof.
  unfold publish.
  destruct (prop "topic" message) as [[| | |t| |]|]; try done.
  case_decide; [done|]. destruct (topics w !! t) as [receivers|]; [|done].
  unfold set_fold; simpl.
  by apply (socket_fold_clients (λ c, c ≠ socket) (λ conn, send conn message)).
Qed.

Lemma publish_nowhere socket message w :
  (∀ t, prop "topic" message = Some (JStr t) → t = EmptyString ∨ topics w !! t = None) →
  publish socket message w = w.
Proof.
  intros Hno. unfold publish.
  destruct (prop "topic" message) as [[| | |t| |]|]; try done.
  case_decide; [done|]. destruct (Hno t eq_refl) as [?|Hnone]; [done|].
  by rewrite Hnone.
Qed.

Lemma on_message_publish socket message w :
  message_type message = Some "publish" →
  on_message socket (Some message) w = publish socket message w.
Proof.
  intros Hty. unfold on_message. rewrite Hty.
  rewrite decide_False by done. by rewrite decide_True.
Qed.

(** C4.  A publish envelope with a non-empty string topic that has an
    entry in the registry: the delivery routine [send] is run, with the
    envelope as it was received, once on every subscriber of the topic
    other than the publisher; a subscriber that is open, has at most
    1,000,000 bytes queued and whose transport takes the write is handed
    exactly that envelope; the publisher's socket and the sockets of
    non-subscribers are untouched, and so are the registry and the tracked
    clients.  With a topic that is absent, not a string, empty, or without
    entry in the registry, the whole state is unchanged. *)
Theorem publish_reaches_other_subscribers socket message w :
  message_type message = Some "publish" →
  let w' := on_message socket (Some message) w in
  (∀ t receivers,
      prop "topic" message = Some (JStr t) → t ≠ EmptyString → topics w !! t = Some receivers →
      topics w' = topics w ∧ clients w' = clients w ∧
      (∀ c, c ∈ receivers → c ≠ socket →
            sockets w' !! c = (λ conn, send conn message) <$> sockets w !! c) ∧
      (∀ c conn, c ∈ receivers → c ≠ socket → sockets w !! c = Some conn →
            readyState conn = 1%Z → (bufferedAmount conn ≤ 1000000)%Z →
            send_throws conn = false →
            sockets w' !! c = Some (log (Sent message) conn)) ∧
      sockets w' !! socket = sockets w !! socket ∧
      (∀ c, c ∉ receivers → sockets w' !! c = sockets w !! c)) ∧
  ((∀ t, prop "topic" message = Some (JStr t) → t = EmptyString ∨ topics w !! t = None) →
   w' = w).
Proof.
  intros Hty w'. unfold w'. rewrite (on_message_publish _ _ _ Hty). split.
  - intros t receivers Ht Hne Hr.
    split; [apply publish_topics|]. split; [apply publish_clients|].
    repeat split.
    + intros c Hin Hc. rewrite (publish_sockets _ _ _ _ _ c Ht Hne Hr).
      by rewrite decide_True.
    + intros c conn Hin Hc Hconn Hopen Hbuf Hst.
      rewrite (publish_sockets _ _ _ _ _ c Ht Hne Hr).
      rewrite decide_True by done. rewrite Hconn; simpl.
      by rewrite send_delivers.
    + rewrite (publish_sockets _ _ _ _ _ socket Ht Hne Hr).
      rewrite decide_False; [done|tauto].
    + intros c Hnotin. rewrite (publish_sockets _ _ _ _ _ c Ht Hne Hr).
      rewrite decide_False; [done|tauto].
  - apply publish_nowhere.
Qed.

Lemma publish_reaches_other_subscribers_witness :
  (trace <$> sockets (on_message 0 (Some envelope) two_subscribers) !! 1%nat)
    = Some [Sent envelope] ∧
  (trace <$> sockets (on_message 0 (Some envelope) two_subscribers) !! 0%nat)
    = Some [].
Proof.
  destruct (publish_reaches_other_subscribers 0 envelope two_subscribers eq_refl)
    as [Hpub _].
  destruct (Hpub "x" {[0%nat; 1%nat]}) as (_ & _ & _ & Hsent & Hself & _);
    [reflexivity|done|by vm_compute|].
  split.
  - rewrite (Hsent 1%nat (set_subscribedTopics {["x"]} new_socket)).
    + reflexivity.
    + set_solver.
    + done.
    + by vm_compute.
    + reflexivity.
    + by vm_compute.
    + reflexivity.
  - rewrite Hself. by vm_compute.
Defined.

(** C10.  A connection that is not a subscriber of the topic it publishes
    to: the delivery routine [send] is run with the envelope on every
    subscriber of the topic, a subscriber that is open, has at most
    1,000,000 bytes queued and whose transport takes the write is handed
    the envelope, and the publisher's own socket is left as it was (nothing
    is sent to it and it is not closed). *)
Theorem outsider_may_publish socket message w t receivers :
  message_type message = Some "publish" →
  prop "topic" message = Some (JStr t) → t ≠ EmptyString →
  topics w !! t = Some receivers → socket ∉ receivers →
  let w' := on_message socket (Some message) w in
  (∀ c, c ∈ receivers →
        sockets w' !! c = (λ conn, send conn message) <$> sockets w !! c) ∧
  (∀ c conn, c ∈ receivers → sockets w !! c = Some conn →
        readyState conn = 1%Z → (bufferedAmount conn ≤ 1000000)%Z →
        send_throws conn = false →
        sockets w' !! c = Some (log (Sent message) conn)) ∧
  sockets w' !! socket = sockets w !! socket ∧
  topics w' = topics w ∧ clients w' = clients w.
Proof.
  intros Hty Ht Hne Hr Hout w'. unfold w'. rewrite (on_message_publish _ _ _ Hty).
  assert (∀ c, c ∈ receivers → c ≠ socket) as Hother by (intros c ? ->; done).
  repeat split.
  - intros c Hin. rewrite (publish_sockets _ _ _ _ _ c Ht Hne Hr).
    rewrite decide_True; [done|]. split; [done|by apply Hother].
  - intros c conn Hin Hconn Hopen Hbuf Hst.
    rewrite (publish_sockets _ _ _ _ _ c Ht Hne Hr).
    rewrite decide_True by (split; [done|by apply Hother]).
    rewrite Hconn; simpl. by rewrite send_delivers.
  - rewrite (publish_sockets _ _ _ _ _ socket Ht Hne Hr).
    rewrite decide_False; [done|tauto].
  - apply publish_topics.
  - apply publish_clients.
Qed.

Lemma outsider_may_publish_witness :
  let w' := on_message 2 (Some envelope) two_subscribers_and_outsider in
  (trace <$> sockets w' !! 0%nat) = Some [Sent envelope] ∧
  (trace <$> sockets w' !! 1%nat) = Some [Sent envelope] ∧
  sockets w' !! 2%nat = Some new_socket.
Proof.
  destruct (outsider_may_publish 2 envelope two_subscribers_and_outsider "x"
              {[0%nat; 1%nat]}) as (_ & Hsent & Hself & _).
  - reflexivity.
  - reflexivity.
  - done.
  - by vm_compute.
  - set_solver.
  - intros w'. unfold w'. split; [|split].
    + rewrite (Hsent 0%nat (set_subscribedTopics {["x"]} new_socket));
        [reflexivity|set_solver|by vm_compute|reflexivity|by vm_compute|reflexivity].
    + rewrite (Hsent 1%nat (set_subscribedTopics {["x"]} new_socket));
        [reflexivity|set_solver|by vm_compute|reflexivity|by vm_compute|reflexivity].
    + rewrite Hself. by vm_compute.
Defined.

(** ** Heartbeat *)

Lemma on_tick_sockets w c :
  sockets (on_tick w) !! c =
    if decide (c ∈ clients w) then heartbeat <$> sockets w !! c else sockets w !! c.
Proof.
  unfold on_tick, set_fold; simpl.
  rewrite (socket_fold_sockets (λ _, True) heartbeat) by (done || apply NoDup_elements).
  apply decide_ext. rewrite elem_of_elements. tauto.
Qed.

Lemma on_tick_clients w : clients (on_tick w) = clients w.
Proof.
  unfold on_tick, set_fold; simpl.
  by apply (socket_fold_clients (λ _, True) heartbeat).
Qed.

Lemma heartbeat_suspected_socket s : isAlive s = false → heartbeat s = ws_terminate s.
Proof. intros Hs. unfold heartbeat. by rewrite decide_True. Qed.

Lemma heartbeat_alive_socket s :
  isAlive s = true →
  heartbeat s = if ping_throws s then ws_terminate (set_isAlive false s)
                else log Pinged (set_isAlive false s).
Proof.
  intros Hs. unfold heartbeat, ws_ping. rewrite decide_False by congruence.
  simpl. by destruct (ping_throws s).
Qed.

Lemma heartbeat_isAlive s : isAlive (heartbeat s) = false.
Proof.
  destruct (isAlive s) eqn:Hs.
  - rewrite heartbeat_alive_socket by done. unfold ws_terminate.
    destruct (ping_throws s); [|done]. simpl. by case_decide.
  - rewrite heartbeat_suspected_socket by done. unfold ws_terminate. simpl.
    by case_decide.
Qed.

Lemma suspected_ext w w' c : sockets w' = sockets w → suspected w c → suspected w' c.
Proof. unfold suspected. by intros ->. Qed.

Lemma with_socket_suspected conn f w c :
  (conn = c → ∀ s, isAlive s = false → isAlive (f s) = false) →
  suspected w c → suspected (with_socket conn f w) c.
Proof.
  intros Hf (s & Hs & Hdead). unfold suspected, with_socket; simpl.
  rewrite lookup_alter. case_decide as Heq.
  - subst c. rewrite Hs; simpl. eauto.
  - eauto.
Qed.

Lemma send_isAlive message s : isAlive (send s message) = isAlive s.
Proof.
  unfold send, ws_send, ws_close. repeat case_decide; try done.
  all: destruct (send_throws s); try done; by case_decide.
Qed.

Lemma subscribe_topic_suspected socket c w topicName :
  suspected w c → suspected (subscribe_topic socket w topicName) c.
Proof.
  intros Hw. destruct topicName as [| | |name| |]; simpl; try done.
  case_decide; [done|]. by apply with_socket_suspected.
Qed.

Lemma unsubscribe_topic_suspected socket c w topicName :
  suspected w c → suspected (unsubscribe_topic socket w topicName) c.
Proof.
  intros Hw. destruct topicName as [| | |name| |]; simpl; try done.
  destruct (topics w !! name); [|done]. by apply with_socket_suspected.
Qed.

Lemma relay_to_suspected socket message c receiver w :
  suspected w c → suspected (relay_to socket message receiver w) c.
Proof.
  intros Hw. unfold relay_to. case_decide; [|done].
  apply with_socket_suspected; [|done]. intros _ s. by rewrite send_isAlive.
Qed.

Lemma on_message_suspected socket data c w :
  suspected w c → suspected (on_message socket data w) c.
Proof.
  intros Hw. destruct data as [message|]; simpl; [|done].
  destruct (message_type message) as [ty|]; [|done].
  repeat case_decide; try done.
  - apply (foldl_preserves (λ w, suspected w c)); [|done].
    intros; by apply subscribe_topic_suspected.
  - unfold publish.
    destruct (prop "topic" message) as [[| | |t| |]|]; try done.
    case_decide; [done|]. destruct (topics w !! t) as [receivers|]; [|done].
    unfold set_fold; simpl. apply (foldr_preserves (λ w, suspected w c)); [|done].
    intros; by apply relay_to_suspected.
  - apply (foldl_preserves (λ w, suspected w c)); [|done].
    intros; by apply unsubscribe_topic_suspected.
  - apply with_socket_suspected; [|done]. intros _ s. by rewrite send_isAlive.
Qed.

Lemma on_close_suspected socket c w : suspected w c → suspected (on_close socket w) c.
Proof.
  intros Hw. unfold on_close. apply with_socket_suspected; [done|].
  unfold set_fold; simpl. apply (suspected_ext w); [|done].
  apply close_fold_sockets.
Qed.

Lemma on_tick_suspected c w : suspected w c → suspected (on_tick w) c.
Proof.
  intros (s & Hs & Hdead). unfold suspected. rewrite on_tick_sockets, Hs.
  case_decide; [|by eauto]. simpl. eexists. split; [done|]. apply heartbeat_isAlive.
Qed.

Lemma on_connection_suspected c w : suspected w c → suspected (on_connection w) c.
Proof.
  intros (s & Hs & Hdead). exists s. split; [|done].
  unfold on_connection; simpl. rewrite lookup_insert_ne; [done|].
  intros Heq. apply (is_fresh (dom (sockets w))). rewrite Heq.
  apply elem_of_dom. eauto.
Qed.

Lemma step_suspected env w e c :
  e ≠ Pong c → suspected w c → suspected (step env w e) c.
Proof.
  intros He Hw. destruct e as [req|socket data|socket|socket| |socket rs ba st pt]; simpl.
  - unfold upgrade. destruct (on_upgrade env req); [done|]. by apply on_connection_suspected.
  - case_decide; [|done]. by apply on_message_suspected.
  - apply with_socket_suspected; [|done]. intros ->. done.
  - apply on_close_suspected. by apply with_socket_suspected.
  - by apply on_tick_suspected.
  - by apply with_socket_suspected.
Qed.

Lemma run_suspected env events w c :
  Pong c ∉ events → suspected w c → suspected (run env w events) c.
Proof.
  revert w. induction events as [|e events IH]; intros w Hno Hw; [done|].
  cbn [run foldl]. apply IH.
  - intros Hin. apply Hno. by right.
  - apply step_suspected; [|done]. intros ->. apply Hno. by left.
Qed.

(** C7.  At a heartbeat tick every tracked socket whose [isAlive] is false
    gets [terminate()]; every other tracked socket has [isAlive] set to
    false and is sent a ping, or gets [terminate()] at once when sending
    the ping fails.  Hence, if no pong of a tracked connection is handled
    between one tick and the next, then, whatever else the server handles
    in between, the connection has closed by then or the next tick calls
    [terminate()] on it. *)
Theorem heartbeat_terminates_silent_peer env w :
  (∀ c s, c ∈ clients w → sockets w !! c = Some s → isAlive s = false →
      sockets (step env w Tick) !! c = Some (ws_terminate s)) ∧
  (∀ c s, c ∈ clients w → sockets w !! c = Some s → isAlive s = true →
      sockets (step env w Tick) !! c =
        Some (if ping_throws s then ws_terminate (set_isAlive false s)
              else log Pinged (set_isAlive false s))) ∧
  (∀ c events, c ∈ clients w → is_Some (sockets w !! c) → Pong c ∉ events →
      let w2 := run env (step env w Tick) events in
      c ∉ clients w2 ∨
      ∃ s2, sockets w2 !! c = Some s2 ∧
            sockets (step env w2 Tick) !! c = Some (ws_terminate s2)).
Proof.
  cbn [step]. split; [|split].
  - intros c s Hc Hs Hdead. rewrite on_tick_sockets, decide_True by done.
    rewrite Hs; simpl. by rewrite heartbeat_suspected_socket.
  - intros c s Hc Hs Halive. rewrite on_tick_sockets, decide_True by done.
    rewrite Hs; simpl. by rewrite heartbeat_alive_socket.
  - intros c events Hc [s Hs] Hno. set (w2 := run env (on_tick w) events).
    destruct (decide (c ∈ clients w2)) as [Hin|Hout]; [right|by left].
    assert (suspected w2 c) as (s2 & Hs2 & Hdead).
    { apply run_suspected; [done|]. unfold suspected.
      rewrite on_tick_sockets, decide_True by done. rewrite Hs; simpl.
      eexists. split; [done|]. apply heartbeat_isAlive. }
    exists s2. split; [done|].
    rewrite on_tick_sockets, decide_True by done.
    rewrite Hs2; simpl. by rewrite heartbeat_suspected_socket.
Qed.

(** Socket 0 is probed at the first tick, sends no pong while another
    connection arrives and subscribes, and is terminated at the second
    tick. *)
Lemma heartbeat_terminates_silent_peer_witness :
  let w2 := run None (step None one_subscriber Tick)
              [Upgrade ok_request; Message 1 (Some (subscribe_msg ["x"]))] in
  (trace <$> sockets (step None one_subscriber Tick) !! 0%nat) = Some [Pinged] ∧
  (trace <$> sockets (step None w2 Tick) !! 0%nat) = Some [Pinged; Terminated].
Proof.
  intros w2. split.
  - rewrite (proj1 (proj2 (heartbeat_terminates_silent_peer None one_subscriber))
               0%nat (set_subscribedTopics {["x"]} new_socket));
      [reflexivity|by vm_compute|by vm_compute|reflexivity].
  - destruct (proj2 (proj2 (heartbeat_terminates_silent_peer None one_subscriber))
                0%nat [Upgrade ok_request; Message 1 (Some (subscribe_msg ["x"]))])
      as [Hout|(s2 & Hs2 & Hterm)].
    + by vm_compute.
    + eexists. by vm_compute.
    + intros Hin. apply list_elem_of_In in Hin. simpl in Hin.
      destruct Hin as [Hin|[Hin|[]]]; discriminate Hin.
    + exfalso. apply Hout. by vm_compute.
    + fold w2 in Hs2, Hterm. rewrite Hterm.
      assert (Some s2 = sockets w2 !! 0%nat) as Heq by done.
      vm_compute in Heq. injection Heq as ->. reflexivity.
Defined.

(** ** Admission *)

Lemma on_upgrade_accepts env req :
  on_upgrade env req = HandleUpgrade ↔
    pathname req = Some (WS_PATH env) ∧
    (origin req = None ∨ origin req = Some EmptyString ∨
     ∃ o, origin req = Some o ∧ o ∈ ALLOWED_ORIGINS).
Proof.
  unfold on_upgrade. destruct (pathname req) as [p|]; [|by split; [|intros [? _]]].
  case_decide as Hp.
  { split; [done|]. intros [[= ->] _]. done. }
  subst p.
  destruct (origin req) as [o|]; [|by split; [intros _; split; [|left]|]].
  case_decide as Ho.
  - split; [done|]. intros [_ [?|[[= ->]|(o' & [= <-] & Hin)]]]; [done| |]; tauto.
  - split; [|done]. intros _. split; [done|]. right.
    destruct (decide (o = EmptyString)) as [->|Hne]; [by left|right].
    exists o. split; [done|]. destruct (decide (o ∈ ALLOWED_ORIGINS)); [done|tauto].
Qed.

(** C5.  The gate is to admit a request exactly when its path is the
    configured one and its origin header is absent or in the allow-set, as
    the comment of the handler has it (origin checks are enforced when an
    Origin header is present).  The code misses that on a request whose
    origin header is present but empty: the empty string is not in the
    allow-set, yet [origin && ...] takes it for no header, the handler
    hands the request over and a connection is created.  So the
    equivalence of the claim fails on the code at this request. *)
Lemma empty_origin_is_admitted :
  origin empty_origin_request = Some EmptyString ∧ (EmptyString ∉ ALLOWED_ORIGINS) ∧
  on_upgrade None empty_origin_request = HandleUpgrade ∧
  clients (step None initial (Upgrade empty_origin_request)) = {[0%nat]} ∧
  ¬ (on_upgrade None empty_origin_request = HandleUpgrade ↔
       pathname empty_origin_request = Some (WS_PATH None) ∧
       (origin empty_origin_request = None ∨
        ∃ o, origin empty_origin_request = Some o ∧ o ∈ ALLOWED_ORIGINS)).
Proof.
  assert (EmptyString ∉ ALLOWED_ORIGINS) as Hnot by (by vm_compute).
  split; [done|]. split; [done|]. split; [done|]. split; [by vm_compute|].
  intros [Hclaim _]. destruct (Hclaim eq_refl) as [_ [?|(o & [= <-] & Hin)]]; done.
Qed.

(** What the handler does as written, the empty origin header included:
    it hands a request over exactly when the parsed path equals the
    configured path and the origin header is absent, empty, or in the
    allow-set.  A request whose URL does not parse is refused.  A refused
    request leaves the whole state as it was; an admitted one adds one
    fresh socket, tracked, alive and without subscriptions, and leaves the
    registry alone. *)
Theorem upgrade_admission env req w :
  (on_upgrade env req = HandleUpgrade ↔
     pathname req = Some (WS_PATH env) ∧
     (origin req = None ∨ origin req = Some EmptyString ∨
      ∃ o, origin req = Some o ∧ o ∈ ALLOWED_ORIGINS)) ∧
  (on_upgrade env req ≠ HandleUpgrade → on_upgrade env req = Destroy) ∧
  (pathname req = None → on_upgrade env req = Destroy) ∧
  (on_upgrade env req = Destroy → step env w (Upgrade req) = w) ∧
  (on_upgrade env req = HandleUpgrade →
     let c := fresh (dom (sockets w)) in
     let w' := step env w (Upgrade req) in
     sockets w !! c = None ∧
     sockets w' = <[c := new_socket]> (sockets w) ∧
     clients w' = clients w ∪ {[c]} ∧
     topics w' = topics w).
Proof.
  split; [apply on_upgrade_accepts|]. split; [|split; [|split]].
  - by destruct (on_upgrade env req).
  - intros Hp. unfold on_upgrade. by rewrite Hp.
  - intros Hd. cbn [step]. unfold upgrade. by rewrite Hd.
  - intros Ha. cbn [step]. unfold upgrade. rewrite Ha. repeat split.
    apply not_elem_of_dom, is_fresh.
Qed.

Lemma upgrade_admission_witness :
  on_upgrade None (mkRequest (Some "/ws") (Some "http://localhost:3000")) = HandleUpgrade ∧
  on_upgrade None (mkRequest (Some "/ws") None) = HandleUpgrade ∧
  step (Some "/relay") one_subscriber
       (Upgrade (mkRequest (Some "/ws") (Some "http://localhost:3000"))) = one_subscriber ∧
  step None one_subscriber (Upgrade (mkRequest None None)) = one_subscriber.
Proof.
  split; [|split; [|split]].
  - apply (proj1 (upgrade_admission None _ initial)). split; [done|].
    right; right. eexists. split; [done|]. by vm_compute.
  - apply (proj1 (upgrade_admission None _ initial)). split; [done|]. by left.
  - apply (proj2 (proj2 (proj2 (upgrade_admission (Some "/relay") _ one_subscriber)))).
    reflexivity.
  - apply (proj2 (proj2 (proj2 (upgrade_admission None _ one_subscriber)))).
    apply (proj1 (proj2 (proj2 (upgrade_admission None _ one_subscriber)))). reflexivity.
Defined.

(** ** The scenarios of the specification, run *)

(** Cleanup: A subscribes to ["x"] and ["y"] and closes; the registry is
    empty again. *)
Example cleanup_after_close :
  topics (run None initial
            [Upgrade ok_request; Message 0 (Some (subscribe_msg ["x"; "y"])); Close 0])
    = ∅.
Proof. by vm_compute. Qed.

(** Cap: of 100 names in one subscribe envelope the first 64 are applied. *)
Example subscribe_100_names :
  let w := run None initial
             [Upgrade ok_request; Message 0 (Some (subscribe_msg (names 100)))] in
  subscribed w 0 = list_to_set (names 64) ∧ dom (topics w) = list_to_set (names 64).
Proof. split; by vm_compute. Qed.

(** Backpressure: B has 1,000,001 bytes queued when A publishes. *)
Example publish_to_backed_up_subscriber :
  let w := run None two_subscribers
             [Transport 1 1 1000001 false false; Message 0 (Some envelope)] in
  (trace <$> sockets w !! 1%nat) = Some [] ∧
  (readyState <$> sockets w !! 1%nat) = Some 1%Z.
Proof. split; by vm_compute. Qed.

(** At exactly 1,000,000 bytes the envelope still goes out. *)
Example publish_at_the_limit :
  let w := run None two_subscribers
             [Transport 1 1 1000000 false false; Message 0 (Some envelope)] in
  (trace <$> sockets w !! 1%nat) = Some [Sent envelope].
Proof. by vm_compute. Qed.

(** A subscriber whose socket is no longer open gets [close()] and no
    frame. *)
Example publish_to_closing_subscriber :
  let w := run None two_subscribers
             [Transport 1 2 0 false false; Message 0 (Some envelope)] in
  (trace <$> sockets w !! 1%nat) = Some [Closed].
Proof. by vm_compute. Qed.

(** The application-level ping is answered to the sender only. *)
Example ping_is_answered :
  let w := run None two_subscribers [Message 0 (Some (JObj [("type", JStr "ping")]))] in
  (trace <$> sockets w !! 0%nat) = Some [Sent pong] ∧
  (trace <$> sockets w !! 1%nat) = Some [].
Proof. split; by vm_compute. Qed.

(** * Further properties of the handlers *)

(** ** Delivery: when [send] closes *)

(** X1.  [send] calls [close()] exactly when the delivery fails (socket not
    open, or open and not backed up while the write throws); then no frame
    is recorded and the socket is not open afterwards.  In every other case
    the socket keeps its state and at most the message itself is sent. *)
Theorem send_closes_exactly_on_failure conn message :
  (delivery_fails conn →
     trace (send conn message) = (trace conn ++ [Closed])%list ∧
     readyState (send conn message) ≠ 1%Z) ∧
  (¬ delivery_fails conn →
     readyState (send conn message) = readyState conn ∧
     (trace (send conn message) = trace conn ∨
      trace (send conn message) = (trace conn ++ [Sent message])%list)) ∧
  (Closed ∈ trace (send conn message) → Closed ∉ trace conn → delivery_fails conn).
Proof.
  unfold delivery_fails, send, ws_send, ws_close, wsReadyStateOpen,
    wsReadyStateClosing, backpressure_limit.
  destruct (decide (readyState conn ≠ 1%Z)) as [Hne|Hopen].
  { rewrite (decide_False (P := readyState conn = 1%Z)) by done. simpl.
    split; [done|]. split; [tauto|]. tauto. }
  apply dec_stable in Hopen.
  destruct (decide (bufferedAmount conn > 1000000)%Z) as [Hbuf|Hbuf].
  { split; [intros [?|[? _]]; [done|lia]|]. split; [by auto|]. tauto. }
  destruct (send_throws conn) eqn:Hst.
  - rewrite decide_True by done. simpl. split; [by rewrite ?Hopen|].
    split; [intros Hno; exfalso; apply Hno; right; split; [lia|done]|].
    intros _ _. right. split; [lia|done].
  - simpl. split; [intros [?|[_ ?]]; done|]. split; [by auto|].
    intros Hin Hnotin. apply elem_of_app in Hin as [?|Hin]; [done|].
    apply list_elem_of_singleton in Hin. discriminate.
Qed.

Lemma send_closes_exactly_on_failure_witness :
  let conn := mkSocket 1 0 true ∅ true false [] in
  trace (send conn envelope) = [Closed] ∧ readyState (send conn envelope) = 2%Z.
Proof.
  intros conn.
  destruct (proj1 (send_closes_exactly_on_failure conn envelope)) as [Htrace _].
  - right. split; [simpl; lia|reflexivity].
  - split; [exact Htrace|reflexivity].
Defined.

(** ** The application-level ping *)

(** X2.  A [ping] envelope is answered to its sender only: [send] is run
    with [{type: 'pong'}] on the sender's socket, whatever else the
    envelope holds; every other socket, the registry and the tracked
    clients are as before.  An open sender that is not backed up and whose
    transport takes the write gets exactly the pong. *)
Theorem ping_answers_sender_only socket message w :
  message_type message = Some "ping" →
  let w' := on_message socket (Some message) w in
  topics w' = topics w ∧ clients w' = clients w ∧
  (∀ c, c ≠ socket → sockets w' !! c = sockets w !! c) ∧
  sockets w' !! socket = (λ conn, send conn pong) <$> sockets w !! socket ∧
  (∀ conn, sockets w !! socket = Some conn →
     readyState conn = 1%Z → (bufferedAmount conn ≤ 1000000)%Z →
     send_throws conn = false →
     sockets w' !! socket = Some (log (Sent pong) conn)).
Proof.
  intros Hty w'. unfold w', on_message. rewrite Hty.
  do 3 rewrite decide_False by done. rewrite decide_True by done.
  unfold with_socket; cbn [topics sockets clients].
  split; [done|]. split; [done|]. split; [|split].
  - intros c Hne. by rewrite lookup_alter_ne.
  - by rewrite lookup_alter_eq.
  - intros conn Hconn Hopen Hbuf Hst. rewrite lookup_alter_eq, Hconn. simpl.
    by rewrite send_delivers.
Qed.

Lemma ping_answers_sender_only_witness :
  let w' := on_message 0 (Some (JObj [("type", JStr "ping"); ("topic", JStr "x")]))
              two_subscribers in
  (trace <$> sockets w' !! 0%nat) = Some [Sent pong] ∧
  sockets w' !! 1%nat = sockets two_subscribers !! 1%nat.
Proof.
  intros w'.
  destruct (ping_answers_sender_only 0
              (JObj [("type", JStr "ping"); ("topic", JStr "x")]) two_subscribers
              eq_refl) as (_ & _ & Hother & _ & Hsent).
  split.
  - fold w' in Hsent.
    rewrite (Hsent (set_subscribedTopics {["x"]} new_socket));
      [reflexivity|by vm_compute|reflexivity|by vm_compute|reflexivity].
  - apply Hother. done.
Defined.

(** ** What a subscribe envelope changes *)

Lemma subscribe_fold_member socket l w T c :
  member (foldl (subscribe_topic socket) w l) T c ↔
    member w T c ∨ (c = socket ∧ T ≠ EmptyString ∧ JStr T ∈ l).
Proof.
  revert w. induction l as [|x l IH]; intros w; cbn [foldl].
  - split; [by left|]. intros [?|(_ & _ & ?%elem_of_nil)]; done.
  - rewrite IH, elem_of_cons. destruct x as [| | |name| |];
      try (unfold subscribe_topic; intuition congruence).
    destruct (decide (name = EmptyString)) as [->|Hname].
    { unfold subscribe_topic. rewrite decide_True by done.
      intuition congruence. }
    rewrite subscribe_topic_member by done.
    split.
    + intros [[?|[-> ->]]|(? & ? & ?)]; [by left|right|right]; tauto.
    + intros [?|(-> & HT & [[= ->]|?])]; [by left; left|left; right|right]; tauto.
Qed.

Lemma subscribe_fold_exists socket l w c :
  is_Some (sockets (foldl (subscribe_topic socket) w l) !! c) ↔ is_Some (sockets w !! c).
Proof.
  revert w. induction l as [|x l IH]; intros w; cbn [foldl]; [done|].
  by rewrite IH, subscribe_topic_exists.
Qed.

Lemma on_message_subscribe socket message w :
  message_type message = Some "subscribe" →
  on_message socket (Some message) w =
    foldl (subscribe_topic socket) w (take 64 (topics_list message)).
Proof. intros Hty. unfold on_message. rewrite Hty. by rewrite decide_True. Qed.

Lemma on_message_unsubscribe socket message w :
  message_type message = Some "unsubscribe" →
  on_message socket (Some message) w =
    foldl (unsubscribe_topic socket) w (topics_list message).
Proof.
  intros Hty. unfold on_message. rewrite Hty.
  do 2 rewrite decide_False by done. by rewrite decide_True.
Qed.

(** X3.  After a subscribe envelope the subscribers of a topic are those it
    had before, plus the sender if the topic is a non-empty string among
    the first 64 entries of the list: entries that are not strings or are
    empty add nothing, and no other connection joins or leaves anything.
    In a state where registry and own sets agree, the sender's own set
    changes the same way. *)
Theorem subscribe_adds_exactly_the_named_topics socket message w :
  message_type message = Some "subscribe" →
  let w' := on_message socket (Some message) w in
  (∀ T c, member w' T c ↔
     member w T c ∨
     (c = socket ∧ T ≠ EmptyString ∧ JStr T ∈ take 64 (topics_list message))) ∧
  (is_Some (sockets w !! socket) → registry_agrees w →
   ∀ T c, T ∈ subscribed w' c ↔
     T ∈ subscribed w c ∨
     (c = socket ∧ T ≠ EmptyString ∧ JStr T ∈ take 64 (topics_list message))).
Proof.
  intros Hty w'. split.
  - intros T c. unfold w'. rewrite on_message_subscribe by done.
    apply subscribe_fold_member.
  - intros Hs Hag T c. unfold w'.
    rewrite <-(on_message_agrees socket (Some message) w Hs Hag c T).
    rewrite <-(Hag c T). rewrite on_message_subscribe by done.
    apply subscribe_fold_member.
Qed.

Lemma subscribe_adds_exactly_the_named_topics_witness :
  let m := JObj [("type", JStr "subscribe");
                 ("topics", JArr [JNum 7; JStr EmptyString; JStr "y"])] in
  member (on_message 0 (Some m) one_subscriber) "y" 0 ∧
  ¬ member (on_message 0 (Some m) one_subscriber) EmptyString 0.
Proof.
  intros m.
  destruct (subscribe_adds_exactly_the_named_topics 0 m one_subscriber eq_refl)
    as [Hmem _].
  split.
  - apply Hmem. right. split; [done|]. split; [done|].
    vm_compute. apply list_elem_of_In. simpl. tauto.
  - intros H. apply Hmem in H as [(M & HM & _)|(_ & Hne & _)]; [|done].
    vm_compute in HM. discriminate.
Defined.

(** ** What an unsubscribe envelope changes *)

Lemma unsubscribe_topic_lookup socket w name T :
  topics (unsubscribe_topic socket w (JStr name)) !! T =
    if decide (T = name) then without socket (topics w !! T) else topics w !! T.
Proof.
  unfold unsubscribe_topic. destruct (topics w !! name) as [M|] eqn:Hname.
  - rewrite with_socket_topics. by apply drop_subscriber_lookup.
  - case_decide as Heq; [|done]. subst T. by rewrite Hname.
Qed.

Lemma unsubscribe_topic_either socket w x T :
  topics (unsubscribe_topic socket w x) !! T = topics w !! T ∨
  topics (unsubscribe_topic socket w x) !! T = without socket (topics w !! T).
Proof.
  destruct x as [| | |name| |]; try by left.
  rewrite unsubscribe_topic_lookup. case_decide; [by right|by left].
Qed.

Lemma unsubscribe_fold_settled socket l w T :
  without socket (topics w !! T) = topics w !! T →
  topics (foldl (unsubscribe_topic socket) w l) !! T = topics w !! T.
Proof.
  revert w. induction l as [|x l IH]; intros w Hw; cbn [foldl]; [done|].
  assert (topics (unsubscribe_topic socket w x) !! T = topics w !! T) as Heq.
  { destruct (unsubscribe_topic_either socket w x T) as [Heq|Heq]; [done|].
    by rewrite Heq. }
  rewrite IH by (by rewrite Heq). exact Heq.
Qed.

Lemma unsubscribe_fold_named socket l w T :
  JStr T ∈ l →
  topics (foldl (unsubscribe_topic socket) w l) !! T = without socket (topics w !! T).
Proof.
  revert w. induction l as [|x l IH]; intros w Hin; cbn [foldl].
  - by apply elem_of_nil in Hin.
  - apply elem_of_cons in Hin as [<-|Hin].
    + rewrite unsubscribe_fold_settled.
      * rewrite unsubscribe_topic_lookup. by rewrite decide_True.
      * rewrite unsubscribe_topic_lookup. rewrite decide_True by done.
        apply without_idemp.
    + rewrite IH by done.
      destruct (unsubscribe_topic_either socket w x T) as [-> | ->];
        [done|apply without_idemp].
Qed.

Lemma unsubscribe_fold_unnamed socket l w T :
  JStr T ∉ l →
  topics (foldl (unsubscribe_topic socket) w l) !! T = topics w !! T.
Proof.
  revert w. induction l as [|x l IH]; intros w Hout; cbn [foldl]; [done|].
  apply not_elem_of_cons in Hout as [Hx Hl]. rewrite IH by done.
  destruct x as [| | |name| |]; try done.
  rewrite unsubscribe_topic_lookup. rewrite decide_False; [done|congruence].
Qed.

(** X4.  After an unsubscribe envelope the entry of every topic named
    anywhere in the list is the old entry without the sender, and is gone
    when nobody else is left; the entries of topics that are not named are
    untouched.  So a connection is a subscriber afterwards exactly if it
    was one before and is not the sender of an envelope naming the topic;
    in a state where registry and own sets agree, the own sets change the
    same way. *)
Theorem unsubscribe_removes_exactly_the_named_topics socket message w :
  message_type message = Some "unsubscribe" →
  let w' := on_message socket (Some message) w in
  (∀ T, JStr T ∈ topics_list message →
        topics w' !! T = without socket (topics w !! T)) ∧
  (∀ T, JStr T ∉ topics_list message → topics w' !! T = topics w !! T) ∧
  (∀ T c, member w' T c ↔
     member w T c ∧ ¬ (c = socket ∧ JStr T ∈ topics_list message)) ∧
  (is_Some (sockets w !! socket) → registry_agrees w →
   ∀ T c, T ∈ subscribed w' c ↔
     T ∈ subscribed w c ∧ ¬ (c = socket ∧ JStr T ∈ topics_list message)).
Proof.
  intros Hty w'. unfold w'. split; [|split; [|split]].
  - intros T Hin. rewrite on_message_unsubscribe by done.
    by apply unsubscribe_fold_named.
  - intros T Hout. rewrite on_message_unsubscribe by done.
    by apply unsubscribe_fold_unnamed.
  - intros T c. rewrite on_message_unsubscribe by done.
    apply unsubscribe_fold_member.
  - intros Hs Hag T c.
    rewrite <-(on_message_agrees socket (Some message) w Hs Hag c T).
    rewrite <-(Hag c T). rewrite on_message_unsubscribe by done.
    apply unsubscribe_fold_member.
Qed.

Lemma unsubscribe_removes_exactly_the_named_topics_witness :
  topics (on_message 0 (Some (unsubscribe_msg ["x"])) two_subscribers) !! "x"
    = Some {[1%nat]} ∧
  topics (on_message 0 (Some (unsubscribe_msg ["x"])) one_subscriber) !! "x" = None.
Proof.
  split.
  - rewrite (proj1 (unsubscribe_removes_exactly_the_named_topics 0
                      (unsubscribe_msg ["x"]) two_subscribers eq_refl) "x").
    + by vm_compute.
    + vm_compute. apply list_elem_of_In. simpl. tauto.
  - rewrite (proj1 (unsubscribe_removes_exactly_the_named_topics 0
                      (unsubscribe_msg ["x"]) one_subscriber eq_refl) "x").
    + by vm_compute.
    + vm_compute. apply list_elem_of_In. simpl. tauto.
Defined.

(** ** Unsubscribing what was never joined, and undoing a subscribe *)

Lemma socket_eta s :
  mkSocket (readyState s) (bufferedAmount s) (isAlive s) (subscribedTopics s)
           (send_throws s) (ping_throws s) (trace s) = s.
Proof. by destruct s. Qed.

Lemma unsubscribe_topic_stranger socket w name :
  registry_nonempty w → registry_agrees w → ¬ member w name socket →
  unsubscribe_topic socket w (JStr name) = w.
Proof.
  intros Hne Hag Hout. unfold unsubscribe_topic.
  destruct (topics w !! name) as [M|] eqn:Hname; [|done].
  assert (socket ∉ M) as Hnotin by (intros ?; apply Hout; by exists M).
  assert (M ∖ {[socket]} = M) as HM by set_solver.
  apply world_eq; simpl; [| |done].
  - rewrite HM. rewrite decide_False.
    + by apply insert_id.
    + intros Hsz. apply size_empty_inv in Hsz. apply (Hne name M Hname).
      by apply leibniz_equiv.
  - apply alter_id. intros s Hs.
    assert (name ∉ subscribedTopics s) as Hown.
    { intros Hin. apply Hout, Hag. unfold subscribed. by rewrite Hs. }
    unfold set_subscribedTopics.
    replace (subscribedTopics s ∖ {[name]}) with (subscribedTopics s) by set_solver.
    apply socket_eta.
Qed.

(** X5.  In a state the server can reach, an unsubscribe envelope that
    names only topics its sender is no subscriber of (unknown topics,
    topics of others, values that are not strings) changes nothing at
    all. *)
Theorem unsubscribe_of_stranger_is_noop env events socket message :
  let w := run env initial events in
  message_type message = Some "unsubscribe" →
  (∀ name, JStr name ∈ topics_list message → ¬ member w name socket) →
  on_message socket (Some message) w = w.
Proof.
  intros w Hty Hout. rewrite on_message_unsubscribe by done.
  assert (registry_nonempty w) as Hne by apply run_nonempty, initial_nonempty.
  assert (registry_agrees w) as Hag by apply run_agrees, initial_agrees.
  induction (topics_list message) as [|x l IH]; cbn [foldl]; [done|].
  assert (unsubscribe_topic socket w x = w) as ->.
  { destruct x as [| | |name| |]; try done.
    apply unsubscribe_topic_stranger; [done|done|]. apply Hout. by left. }
  apply IH. intros name Hin. apply Hout. by right.
Qed.

Lemma unsubscribe_of_stranger_is_noop_witness :
  on_message 1 (Some (unsubscribe_msg ["x"; "nowhere"]))
    (run None initial
       [Upgrade ok_request; Upgrade ok_request; Message 0 (Some (subscribe_msg ["x"]))])
  = run None initial
       [Upgrade ok_request; Upgrade ok_request; Message 0 (Some (subscribe_msg ["x"]))].
Proof.
  apply (unsubscribe_of_stranger_is_noop None
           [Upgrade ok_request; Upgrade ok_request;
            Message 0 (Some (subscribe_msg ["x"]))] 1 (unsubscribe_msg ["x"; "nowhere"])).
  - reflexivity.
  - intros name Hin (M & HM & HinM).
    vm_compute in Hin. apply list_elem_of_In in Hin. simpl in Hin.
    destruct Hin as [[= <-]|[[= <-]|[]]].
    + assert (Some M = Some ({[0%nat]} : gset nat)) as [= ->]
        by (rewrite <-HM; by vm_compute).
      set_solver.
    + vm_compute in HM. discriminate.
Defined.

(** X6.  Round trip: in a state the server can reach, a connection that
    subscribes to one topic it is not in and then unsubscribes from it
    leaves the state exactly as it was, whether the topic existed before
    (for others) or was created by the subscribe. *)
Theorem subscribe_then_unsubscribe_restores env events socket name m1 m2 :
  let w := run env initial events in
  message_type m1 = Some "subscribe" → topics_list m1 = [JStr name] →
  message_type m2 = Some "unsubscribe" → topics_list m2 = [JStr name] →
  ¬ member w name socket →
  on_message socket (Some m2) (on_message socket (Some m1) w) = w.
Proof.
  intros w Hty1 Hl1 Hty2 Hl2 Hout.
  rewrite on_message_unsubscribe, on_message_subscribe by done.
  rewrite Hl1, Hl2. cbn [take foldl].
  assert (registry_nonempty w) as Hne by apply run_nonempty, initial_nonempty.
  assert (registry_agrees w) as Hag by apply run_agrees, initial_agrees.
  unfold subscribe_topic. case_decide as Hname; [by apply unsubscribe_topic_stranger|].
  unfold unsubscribe_topic. cbn [topics with_socket with_topics].
  rewrite lookup_insert_eq.
  set (M0 := default ∅ (topics w !! name)).
  assert (socket ∉ M0) as Hnotin.
  { unfold M0. destruct (topics w !! name) as [M|] eqn:HM; simpl; [|set_solver].
    intros ?. apply Hout. by exists M. }
  assert ((M0 ∪ {[socket]}) ∖ {[socket]} = M0) as HM0 by set_solver.
  apply world_eq; simpl; [| |done].
  - rewrite HM0. case_decide as Hsz.
    + rewrite delete_insert_eq. apply delete_id.
      destruct (topics w !! name) as [M|] eqn:HM; [|done]. exfalso.
      apply size_empty_inv in Hsz. apply (Hne name M HM).
      apply leibniz_equiv. by unfold M0 in Hsz.
    + rewrite insert_insert_eq. apply insert_id.
      destruct (topics w !! name) as [M|] eqn:HM; [done|]. exfalso.
      apply Hsz. unfold M0. simpl. reflexivity.
  - rewrite alter_alter_eq. apply alter_id. intros s Hs.
    assert (name ∉ subscribedTopics s) as Hown.
    { intros Hin. apply Hout, Hag. unfold subscribed. by rewrite Hs. }
    unfold set_subscribedTopics; simpl.
    replace ((subscribedTopics s ∪ {[name]}) ∖ {[name]}) with (subscribedTopics s)
      by set_solver.
    apply socket_eta.
Qed.

Lemma subscribe_then_unsubscribe_restores_witness :
  on_message 0 (Some (unsubscribe_msg ["y"]))
    (on_message 0 (Some (subscribe_msg ["y"])) one_subscriber) = one_subscriber.
Proof.
  apply (subscribe_then_unsubscribe_restores None
           [Upgrade ok_request; Message 0 (Some (subscribe_msg ["x"]))] 0 "y").
  - reflexivity.
  - reflexivity.
  - reflexivity.
  - reflexivity.
  - intros (M & HM & _). vm_compute in HM. discriminate.
Defined.

(** ** Closing *)

Lemma ws_closed_subscribed socket w c :
  subscribed (ws_closed socket w) c = subscribed w c.
Proof. by apply (subscribed_with_socket socket (set_readyState wsReadyStateClosed)). Qed.

Lemma on_close_clients socket w : clients (on_close socket w) = clients w.
Proof.
  unfold on_close, set_fold; simpl.
  by destruct (close_fold_sockets socket (elements (subscribed w socket)) w) as [_ ->].
Qed.

Lemma on_close_sockets socket w :
  sockets (on_close socket w) = alter (set_subscribedTopics ∅) socket (sockets w).
Proof.
  unfold on_close, set_fold; simpl.
  by destruct (close_fold_sockets socket (elements (subscribed w socket)) w) as [-> _].
Qed.

(** X7.  In a state the server can reach, the close of a connection takes
    it out of every subscriber set, empties its own set and drops it from
    the tracked clients; no other connection loses or gains a
    subscription, and no other socket is touched. *)
Theorem close_removes_only_the_closed_connection env events socket :
  let w := run env initial events in
  let w' := step env w (Close socket) in
  (∀ T, ¬ member w' T socket) ∧
  subscribed w' socket = ∅ ∧
  clients w' = clients w ∖ {[socket]} ∧
  (∀ c T, c ≠ socket → (member w' T c ↔ member w T c)) ∧
  (∀ c, c ≠ socket →
        subscribed w' c = subscribed w c ∧ sockets w' !! c = sockets w !! c).
Proof.
  intros w w'.
  assert (registry_agrees w) as Hag by apply run_agrees, initial_agrees.
  assert (registry_agrees w') as Hag' by by apply step_agrees.
  assert (∀ c, subscribed w' c = if decide (c = socket) then ∅ else subscribed w c)
    as Hsub.
  { intros c. unfold w'. cbn [step]. rewrite on_close_subscribed.
    by rewrite ws_closed_subscribed. }
  split; [|split; [|split; [|split]]].
  - intros T Hmem. apply Hag' in Hmem. rewrite Hsub, decide_True in Hmem by done.
    set_solver.
  - by rewrite Hsub, decide_True.
  - unfold w'. cbn [step]. by rewrite on_close_clients.
  - intros c T Hne. rewrite (Hag' c T), (Hag c T), Hsub. by rewrite decide_False.
  - intros c Hne. split.
    + rewrite Hsub. by rewrite decide_False.
    + unfold w'. cbn [step]. rewrite on_close_sockets. rewrite lookup_alter_ne by done.
      unfold ws_closed; simpl. by rewrite lookup_alter_ne.
Qed.

(** X8.  Handling the close of the same socket once more changes nothing:
    the cleanup is safe to run again, in any state. *)
Theorem close_twice_is_close_once env socket w :
  step env (step env w (Close socket)) (Close socket) = step env w (Close socket).
Proof.
  cbn [step]. set (w1 := on_close socket (ws_closed socket w)).
  assert (subscribed (ws_closed socket w1) socket = ∅) as Hsub.
  { rewrite ws_closed_subscribed. unfold w1. rewrite on_close_subscribed.
    by rewrite decide_True. }
  unfold on_close at 1. rewrite Hsub, set_fold_empty.
  apply world_eq.
  - done.
  - cbn [sockets with_socket ws_closed]. unfold w1. rewrite on_close_sockets.
    cbn [sockets ws_closed]. rewrite !alter_alter_eq. by apply alter_ext.
  - cbn [clients with_socket ws_closed]. unfold w1. rewrite on_close_clients.
    cbn [clients ws_closed]. set_solver.
Qed.

(** ** What the heartbeat leaves alone *)

(** X9.  A heartbeat tick changes neither the registry nor the tracked
    clients nor any connection's own set, and leaves every socket outside
    [wss.clients] as it is: a terminated connection stays subscribed until
    its [close] is handled.  On a tracked socket the tick records exactly
    one action, a ping or a [terminate()], never a text frame. *)
Theorem heartbeat_touches_tracked_sockets_only env w :
  let w' := step env w Tick in
  topics w' = topics w ∧ clients w' = clients w ∧
  (∀ c, subscribed w' c = subscribed w c) ∧
  (∀ c, c ∉ clients w → sockets w' !! c = sockets w !! c) ∧
  (∀ c s, c ∈ clients w → sockets w !! c = Some s →
     ∃ s', sockets w' !! c = Some s' ∧
           (trace s' = (trace s ++ [Pinged])%list ∨
            trace s' = (trace s ++ [Terminated])%list)).
Proof.
  cbn [step]. split; [apply on_tick_topics|]. split; [apply on_tick_clients|].
  split; [apply on_tick_subscribed|]. split.
  - intros c Hout. rewrite on_tick_sockets. by rewrite decide_False.
  - intros c s Hin Hs. rewrite on_tick_sockets, decide_True by done.
    rewrite Hs. simpl. eexists. split; [done|].
    destruct (isAlive s) eqn:Halive.
    + rewrite heartbeat_alive_socket by done. unfold ws_terminate.
      destruct (ping_throws s); [right|left]; [|done]. simpl. by case_decide.
    + rewrite heartbeat_suspected_socket by done. right. unfold ws_terminate.
      simpl. by case_decide.
Qed.

Lemma heartbeat_touches_tracked_sockets_only_witness :
  let w := run None two_subscribers [Close 1] in
  sockets (step None w Tick) !! 1%nat = sockets w !! 1%nat ∧
  ∃ s', sockets (step None w Tick) !! 0%nat = Some s' ∧
        (trace s' = [Pinged] ∨ trace s' = [Terminated]).
Proof.
  intros w.
  destruct (heartbeat_touches_tracked_sockets_only None w)
    as (_ & _ & _ & Hout & Hin).
  split.
  - apply Hout. by vm_compute.
  - apply (Hin 0%nat (set_subscribedTopics {["x"]} new_socket)); by vm_compute.
Defined.

(** ** Fields of a socket that a handler does not touch *)

Section Keeps.

Context {A : Type}.
Variable proj : socket → A.
Variable c : nat.
Hypothesis proj_set_subscribedTopics :
  ∀ t s, proj (set_subscribedTopics t s) = proj s.

Lemma keeps_refl w : keeps proj c w w.
Proof. intros s Hs. by exists s. Qed.

Lemma keeps_trans w1 w2 w3 :
  keeps proj c w1 w2 → keeps proj c w2 w3 → keeps proj c w1 w3.
Proof.
  intros H12 H23 s Hs. destruct (H12 s Hs) as (s2 & Hs2 & Heq2).
  destruct (H23 s2 Hs2) as (s3 & Hs3 & Heq3). exists s3. split; [done|congruence].
Qed.

Lemma keeps_sockets_eq w w' : sockets w' = sockets w → keeps proj c w w'.
Proof. intros Heq s Hs. exists s. by rewrite Heq. Qed.

Lemma keeps_with_socket conn f w :
  (conn = c → ∀ s, proj (f s) = proj s) → keeps proj c w (with_socket conn f w).
Proof.
  intros Hf s Hs. unfold with_socket; cbn [sockets]. rewrite lookup_alter.
  case_decide as Heq.
  - subst conn. rewrite Hs; simpl. eauto.
  - eauto.
Qed.

Lemma keeps_foldl {B} (f : world → B → world) l w :
  (∀ w x, keeps proj c w (f w x)) → keeps proj c w (foldl f w l).
Proof.
  intros Hf. revert w. induction l as [|x l IH]; intros w; cbn [foldl].
  - apply keeps_refl.
  - eapply keeps_trans; [apply Hf|apply IH].
Qed.

Lemma keeps_foldr {B} (f : B → world → world) l w :
  (∀ w x, keeps proj c w (f x w)) → keeps proj c w (foldr f w l).
Proof.
  intros Hf. induction l as [|x l IH]; cbn [foldr].
  - apply keeps_refl.
  - eapply keeps_trans; [apply IH|apply Hf].
Qed.

Lemma keeps_subscribe_topic socket w x : keeps proj c w (subscribe_topic socket w x).
Proof.
  destruct x as [| | |name| |]; try apply keeps_refl. unfold subscribe_topic.
  case_decide; [apply keeps_refl|].
  eapply keeps_trans; [|apply keeps_with_socket; intros _ s; apply proj_set_subscribedTopics].
  by apply keeps_sockets_eq.
Qed.

Lemma keeps_unsubscribe_topic socket w x : keeps proj c w (unsubscribe_topic socket w x).
Proof.
  destruct x as [| | |name| |]; try apply keeps_refl. unfold unsubscribe_topic.
  destruct (topics w !! name); [|apply keeps_refl].
  eapply keeps_trans; [|apply keeps_with_socket; intros _ s; apply proj_set_subscribedTopics].
  by apply keeps_sockets_eq.
Qed.

Lemma keeps_on_connection w : keeps proj c w (on_connection w).
Proof.
  intros s Hs. exists s. split; [|done]. unfold on_connection; cbn [sockets].
  rewrite lookup_insert_ne; [done|].
  intros Heq. apply (is_fresh (dom (sockets w))). rewrite Heq.
  apply elem_of_dom. eauto.
Qed.

Lemma keeps_on_close socket w :
  (∀ rs s, proj (set_readyState rs s) = proj s) →
  keeps proj c w (on_close socket (ws_closed socket w)).
Proof.
  intros Hrs. eapply keeps_trans.
  - apply (keeps_with_socket socket (set_readyState wsReadyStateClosed)).
    intros _ s. apply Hrs.
  - eapply keeps_trans; [|apply keeps_with_socket; intros _ s; apply proj_set_subscribedTopics].
    apply keeps_sockets_eq. unfold set_fold; simpl. apply close_fold_sockets.
Qed.

End Keeps.

Lemma keeps_isAlive_on_message socket data w c :
  keeps isAlive c w (on_message socket data w).
Proof.
  destruct data as [message|]; simpl; [|apply keeps_refl].
  destruct (message_type message) as [ty|]; [|apply keeps_refl].
  repeat case_decide; try apply keeps_refl.
  - apply keeps_foldl. intros; by apply keeps_subscribe_topic.
  - unfold publish.
    destruct (prop "topic" message) as [[| | |t| |]|]; try apply keeps_refl.
    case_decide; [apply keeps_refl|].
    destruct (topics w !! t) as [receivers|]; [|apply keeps_refl].
    unfold set_fold; simpl. apply keeps_foldr. intros w0 x. unfold relay_to.
    case_decide; [|apply keeps_refl].
    apply keeps_with_socket. intros _ s. apply send_isAlive.
  - apply keeps_foldl. intros; by apply keeps_unsubscribe_topic.
  - apply keeps_with_socket. intros _ s. apply send_isAlive.
Qed.

Lemma step_alive env w e c : e ≠ Tick → alive w c → alive (step env w e) c.
Proof.
  intros He (s & Hs & Halive).
  assert (∀ w', keeps isAlive c w w' → alive w' c) as Hkeeps.
  { intros w' Hk. destruct (Hk s Hs) as (s' & Hs' & Heq). exists s'.
    split; [done|congruence]. }
  destruct e as [req|socket data|socket|socket| |socket rs ba st pt]; cbn [step].
  - unfold upgrade. destruct (on_upgrade env req); [by exists s|].
    apply Hkeeps, keeps_on_connection.
  - case_decide; [|by exists s]. apply Hkeeps, keeps_isAlive_on_message.
  - unfold on_pong, alive, with_socket; cbn [sockets]. rewrite lookup_alter.
    case_decide as Heq.
    + subst socket. rewrite Hs; simpl. eauto.
    + eauto.
  - by apply Hkeeps, keeps_on_close.
  - done.
  - by apply Hkeeps, keeps_with_socket.
Qed.

Lemma run_alive env events w c : Tick ∉ events → alive w c → alive (run env w events) c.
Proof.
  revert w. induction events as [|e events IH]; intros w Hno Hw; [done|].
  cbn [run foldl]. apply IH.
  - intros Hin. apply Hno. by right.
  - apply step_alive; [|done]. intros ->. apply Hno. by left.
Qed.

(** X10.  Once a pong of a socket has been handled, the next heartbeat
    tick does not take the connection for dead, whatever the server
    handles in between: if the connection is still tracked, the tick marks
    it and sends the next ping, and calls [terminate()] only if sending
    that ping fails. *)
Theorem pong_keeps_connection_alive env w c events :
  is_Some (sockets w !! c) → Tick ∉ events →
  let w2 := run env (step env w (Pong c)) events in
  c ∈ clients w2 →
  ∃ s2, sockets w2 !! c = Some s2 ∧ isAlive s2 = true ∧
        sockets (step env w2 Tick) !! c =
          Some (if ping_throws s2 then ws_terminate (set_isAlive false s2)
                else log Pinged (set_isAlive false s2)).
Proof.
  intros [s Hs] Hno w2 Hin.
  assert (alive w2 c) as (s2 & Hs2 & Halive).
  { apply run_alive; [done|]. cbn [step]. unfold alive, on_pong, with_socket.
    cbn [sockets]. rewrite lookup_alter_eq, Hs. simpl. eauto. }
  exists s2. split; [done|]. split; [done|].
  cbn [step]. rewrite on_tick_sockets, decide_True by done.
  rewrite Hs2; simpl. by rewrite heartbeat_alive_socket.
Qed.

(** Socket 0 is probed, answers, and is probed again at the next tick. *)
Lemma pong_keeps_connection_alive_witness :
  (trace <$> sockets (run None one_subscriber [Tick; Pong 0; Tick]) !! 0%nat)
    = Some [Pinged; Pinged].
Proof.
  destruct (pong_keeps_connection_alive None (step None one_subscriber Tick) 0 [])
    as (s2 & Hs2 & _ & Htick).
  - eexists. by vm_compute.
  - apply not_elem_of_nil.
  - by vm_compute.
  - change (run None one_subscriber [Tick; Pong 0; Tick])
      with (step None (run None (step None (step None one_subscriber Tick) (Pong 0)) [])
              Tick).
    rewrite Htick.
    assert (Some s2 = sockets (step None (step None one_subscriber Tick) (Pong 0)) !! 0%nat)
      as Heq by done.
    vm_compute in Heq. injection Heq as ->. reflexivity.
Defined.

(** ** Who can get a frame out of a message *)

(** X14.  Handling a message records something on a socket in two cases
    only: the socket is the sender's and the message is a [ping], or the
    message is a [publish] of another connection to a non-empty topic the
    socket's connection is a subscriber of.  Subscribe and unsubscribe
    envelopes and unknown types send nothing to anybody, and a publish
    never reaches a connection outside the topic. *)
Theorem only_subscribers_and_pingers_are_written_to socket message w c s s' :
  sockets w !! c = Some s →
  sockets (on_message socket (Some message) w) !! c = Some s' →
  trace s' ≠ trace s →
  (c = socket ∧ message_type message = Some "ping") ∨
  (c ≠ socket ∧ message_type message = Some "publish" ∧
   ∃ t, prop "topic" message = Some (JStr t) ∧ t ≠ EmptyString ∧ member w t c).
Proof.
  intros Hs Hs' Hdiff.
  assert (∀ w', keeps trace c w w' → sockets w' !! c = Some s' → False) as Hkeeps.
  { intros w' Hk Hw'. destruct (Hk s Hs) as (s0 & Hs0 & Heq).
    apply Hdiff. congruence. }
  unfold on_message in Hs'. destruct (message_type message) as [ty|] eqn:Hty;
    [|exfalso; by apply (Hkeeps w (keeps_refl trace c w))].
  repeat case_decide; subst.
  - exfalso. eapply Hkeeps; [|exact Hs'].
    apply keeps_foldl. intros. by apply keeps_subscribe_topic.
  - right. unfold publish in Hs'.
    destruct (prop "topic" message) as [[| | |t| |]|] eqn:Ht;
      try (exfalso; by apply (Hkeeps w (keeps_refl trace c w))).
    destruct (decide (t = EmptyString)) as [|Hne];
      [exfalso; by apply (Hkeeps w (keeps_refl trace c w))|].
    destruct (topics w !! t) as [receivers|] eqn:Hr;
      [|exfalso; by apply (Hkeeps w (keeps_refl trace c w))].
    assert (c ∈ receivers ∧ c ≠ socket) as [Hin Hother].
    { destruct (decide (c ∈ receivers ∧ c ≠ socket)) as [|Hno]; [done|]. exfalso.
      unfold set_fold in Hs'; simpl in Hs'.
      rewrite (socket_fold_sockets (λ c, c ≠ socket) (λ conn, send conn message))
        in Hs' by (done || apply NoDup_elements).
      rewrite decide_False in Hs'.
      - apply Hdiff. congruence.
      - rewrite elem_of_elements. exact Hno. }
    split; [done|]. split; [done|]. exists t. split; [done|]. split; [done|].
    by exists receivers.
  - exfalso. eapply Hkeeps; [|exact Hs'].
    apply keeps_foldl. intros. by apply keeps_unsubscribe_topic.
  - left. split; [|done]. destruct (decide (c = socket)) as [|Hne]; [done|]. exfalso.
    unfold with_socket in Hs'; cbn [sockets] in Hs'.
    rewrite lookup_alter_ne in Hs' by done. apply Hdiff. congruence.
  - exfalso. by apply (Hkeeps w (keeps_refl trace c w)).
Qed.

Lemma only_subscribers_and_pingers_are_written_to_witness :
  (1%nat = 0%nat ∧ message_type envelope = Some "ping") ∨
  (1%nat ≠ 0%nat ∧ message_type envelope = Some "publish" ∧
   ∃ t, prop "topic" envelope = Some (JStr t) ∧ t ≠ EmptyString ∧
        member two_subscribers t 1).
Proof.
  apply (only_subscribers_and_pingers_are_written_to 0 envelope two_subscribers 1
           (set_subscribedTopics {["x"]} new_socket)
           (log (Sent envelope) (set_subscribedTopics {["x"]} new_socket))).
  - by vm_compute.
  - by vm_compute.
  - simpl. discriminate.
Defined.

(** ** No closed connection lingers in the registry *)

Lemma on_message_clients socket data w : clients (on_message socket data w) = clients w.
Proof.
  destruct data as [message|]; simpl; [|done].
  destruct (message_type message) as [ty|]; [|done].
  repeat case_decide; try done.
  - apply (foldl_preserves (λ w', clients w' = clients w)); [|done].
    intros a x <-. destruct x as [| | |name| |]; simpl; try done. by case_decide.
  - apply publish_clients.
  - apply (foldl_preserves (λ w', clients w' = clients w)); [|done].
    intros a x <-. destruct x as [| | |name| |]; simpl; try done.
    by destruct (topics a !! name).
Qed.

Lemma on_message_member socket data w T c :
  member (on_message socket data w) T c → member w T c ∨ c = socket.
Proof.
  destruct data as [message|]; simpl; [|by left].
  destruct (message_type message) as [ty|]; [|by left].
  repeat case_decide; try by left.
  - rewrite subscribe_fold_member. tauto.
  - unfold member. rewrite publish_topics. by left.
  - rewrite unsubscribe_fold_member. tauto.
Qed.

Lemma step_subscribers_tracked env w e :
  match e with Message socket _ => socket ∈ clients w | _ => True end →
  registry_agrees w → (∀ T c, member w T c → c ∈ clients w) →
  ∀ T c, member (step env w e) T c → c ∈ clients (step env w e).
Proof.
  intros He Hag Hw T c.
  destruct e as [req|socket data|socket|socket| |socket rs ba st pt]; cbn [step].
  - unfold upgrade. destruct (on_upgrade env req); [apply Hw|].
    intros Hmem. unfold on_connection; simpl. apply elem_of_union. left. by apply (Hw T).
  - case_decide; [|apply Hw]. rewrite on_message_clients.
    intros [Hmem| ->]%on_message_member; [by apply (Hw T)|done].
  - apply Hw.
  - intros Hmem. rewrite on_close_clients. unfold ws_closed; cbn [clients].
    assert (registry_agrees (on_close socket (ws_closed socket w))) as Hag'
      by by apply on_close_agrees, ws_closed_agrees.
    assert (c ≠ socket) as Hne.
    { intros ->. apply Hag' in Hmem. rewrite on_close_subscribed, decide_True in Hmem by done.
      set_solver. }
    apply elem_of_difference. split; [|set_solver]. apply (Hw T).
    apply Hag. apply Hag' in Hmem.
    rewrite on_close_subscribed, decide_False, ws_closed_subscribed in Hmem by done.
    done.
  - unfold member. rewrite on_tick_topics, on_tick_clients. apply Hw.
  - apply Hw.
Qed.

(** X11.  If messages arrive only on sockets that are still tracked, as the
    ws library has it, every subscriber found in the registry is a tracked
    client: a connection that has closed is in no subscriber set. *)
Theorem subscribers_are_tracked_clients env events :
  live_messages env initial events →
  let w := run env initial events in
  ∀ T c, member w T c → c ∈ clients w.
Proof.
  intros Hlive w. unfold w. clear w.
  assert (registry_agrees initial ∧ ∀ T c, member initial T c → c ∈ clients initial)
    as Hinit.
  { split; [apply initial_agrees|]. intros T c (M & HM & _).
    simpl in HM. by rewrite lookup_empty in HM. }
  revert Hlive Hinit. generalize initial as w.
  induction events as [|e events IH]; intros w Hlive [Hag Hw]; [exact Hw|].
  destruct Hlive as [He Hlive]. cbn [run foldl]. apply IH; [done|]. split.
  - by apply step_agrees.
  - by apply step_subscribers_tracked.
Qed.

Lemma subscribers_are_tracked_clients_witness :
  1%nat ∈ clients (run None initial
                     [Upgrade ok_request; Upgrade ok_request;
                      Message 0 (Some (subscribe_msg ["x"]));
                      Message 1 (Some (subscribe_msg ["x"; "y"])); Close 0]).
Proof.
  apply (subscribers_are_tracked_clients None
           [Upgrade ok_request; Upgrade ok_request;
            Message 0 (Some (subscribe_msg ["x"]));
            Message 1 (Some (subscribe_msg ["x"; "y"])); Close 0]) with (T := "y").
  - cbn [live_messages]. repeat split; by vm_compute.
  - exists {[1%nat]}. split; [by vm_compute|set_solver].
Defined.

(** ** Events that leave the registry alone *)



(** ** How much one subscribe envelope can add *)

Lemma subscribe_topic_size socket w x c :
  (size (topics (subscribe_topic socket w x)) ≤ S (size (topics w)))%nat ∧
  (size (subscribed (subscribe_topic socket w x) c) ≤ S (size (subscribed w c)))%nat.
Proof.
  destruct x as [| | |name| |]; simpl; try (split; lia).
  case_decide; [split; lia|]. split.
  - simpl. rewrite map_size_insert. destruct (topics w !! name); simpl; lia.
  - unfold subscribed; simpl. rewrite lookup_alter.
    case_decide as Heq; [|lia]. subst c.
    destruct (sockets w !! socket) as [s|]; simpl; [|lia].
    rewrite size_union_alt.
    assert (size ({[name]} ∖ subscribedTopics s) ≤ size ({[name]} : gset string))%nat
      as Hle by (apply subseteq_size; set_solver).
    rewrite size_singleton in Hle. lia.
Qed.

Lemma subscribe_fold_size socket l w c :
  (size (topics (foldl (subscribe_topic socket) w l)) ≤ size (topics w) + length l)%nat ∧
  (size (subscribed (foldl (subscribe_topic socket) w l) c)
    ≤ size (subscribed w c) + length l)%nat.
Proof.
  revert w. induction l as [|x l IH]; intros w; cbn [foldl length]; [split; lia|].
  destruct (IH (subscribe_topic socket w x)) as [IHt IHs].
  destruct (subscribe_topic_size socket w x c) as [Ht Hs]. split; lia.
Qed.

(** X13.  However long its list, one subscribe envelope adds at most 64
    topics to the registry and at most 64 topics to a connection's own
    set. *)
Theorem subscribe_adds_at_most_64 socket message w :
  message_type message = Some "subscribe" →
  let w' := on_message socket (Some message) w in
  (size (topics w') ≤ size (topics w) + 64)%nat ∧
  ∀ c, (size (subscribed w' c) ≤ size (subscribed w c) + 64)%nat.
Proof.
  intros Hty w'. unfold w'. rewrite on_message_subscribe by done.
  assert (length (take 64 (topics_list message)) ≤ 64)%nat as Hlen
    by (rewrite length_take; lia).
  split.
  - destruct (subscribe_fold_size socket (take 64 (topics_list message)) w 0) as [Ht _].
    lia.
  - intros c.
    destruct (subscribe_fold_size socket (take 64 (topics_list message)) w c) as [_ Hs].
    lia.
Qed.

Lemma subscribe_adds_at_most_64_witness :
  (size (topics (on_message 0 (Some (subscribe_msg (names 100))) one_subscriber))
    ≤ size (topics one_subscriber) + 64)%nat.
Proof.
  apply (subscribe_adds_at_most_64 0 (subscribe_msg (names 100)) one_subscriber).
  reflexivity.
Defined.

(** ** At most one action per socket and message *)

Lemma send_trace conn message :
  trace (send conn message) = trace conn ∨
  trace (send conn message) = (trace conn ++ [Sent message])%list ∨
  trace (send conn message) = (trace conn ++ [Closed])%list.
Proof.
  unfold send, ws_send, ws_close. case_decide.
  - right; right. simpl. by case_decide.
  - case_decide; [by left|]. destruct (send_throws conn).
    + right; right. simpl. by case_decide.
    + right; left. done.
Qed.

(** X15.  Handling one message records at most one action on any socket:
    nothing, or the published envelope itself, or the pong, or one call of
    [close()].  No subscriber is written to twice for one publish. *)
Theorem one_message_one_action_per_socket socket message w c s s' :
  sockets w !! c = Some s →
  sockets (on_message socket (Some message) w) !! c = Some s' →
  trace s' = trace s ∨
  trace s' = (trace s ++ [Sent message])%list ∨
  trace s' = (trace s ++ [Sent pong])%list ∨
  trace s' = (trace s ++ [Closed])%list.
Proof.
  intros Hs Hs'.
  assert (∀ w', keeps trace c w w' → sockets w' !! c = Some s' → trace s' = trace s)
    as Hkeeps.
  { intros w' Hk Hw'. destruct (Hk s Hs) as (s0 & Hs0 & Heq). congruence. }
  unfold on_message in Hs'. destruct (message_type message) as [ty|] eqn:Hty;
    [|left; by apply (Hkeeps w (keeps_refl trace c w))].
  repeat case_decide; subst.
  - left. eapply Hkeeps; [|exact Hs'].
    apply keeps_foldl. intros. by apply keeps_subscribe_topic.
  - unfold publish in Hs'.
    destruct (prop "topic" message) as [[| | |t| |]|] eqn:Ht;
      try (left; by apply (Hkeeps w (keeps_refl trace c w))).
    destruct (decide (t = EmptyString)) as [|Hne];
      [left; by apply (Hkeeps w (keeps_refl trace c w))|].
    destruct (topics w !! t) as [receivers|] eqn:Hr;
      [|left; by apply (Hkeeps w (keeps_refl trace c w))].
    unfold set_fold in Hs'; simpl in Hs'.
    rewrite (socket_fold_sockets (λ c, c ≠ socket) (λ conn, send conn message))
      in Hs' by (done || apply NoDup_elements).
    case_decide; [|left; congruence].
    rewrite Hs in Hs'. injection Hs' as <-.
    destruct (send_trace s message) as [->|[->| ->]]; auto.
  - left. eapply Hkeeps; [|exact Hs'].
    apply keeps_foldl. intros. by apply keeps_unsubscribe_topic.
  - unfold with_socket in Hs'; cbn [sockets] in Hs'. rewrite lookup_alter in Hs'.
    case_decide; [|left; congruence]. subst c.
    rewrite Hs in Hs'. injection Hs' as <-.
    destruct (send_trace s pong) as [->|[->| ->]]; auto.
  - left. by apply (Hkeeps w (keeps_refl trace c w)).
Qed.

Lemma one_message_one_action_per_socket_witness :
  let s' := log (Sent envelope) (set_subscribedTopics {["x"]} new_socket) in
  trace s' = [] ∨ trace s' = [Sent envelope] ∨ trace s' = [Sent pong] ∨
  trace s' = [Closed].
Proof.
  apply (one_message_one_action_per_socket 0 envelope two_subscribers 1
           (set_subscribedTopics {["x"]} new_socket)
           (log (Sent envelope) (set_subscribedTopics {["x"]} new_socket)));
    by vm_compute.
Defined.
